(* ===================================================================== *)
(* Outage reconstruction and alert decision of the status notifier       *)
(* (src/scripts/slack-notification.ts), as a shallow embedding.          *)
(*                                                                       *)
(* Conventions of the embedding:                                         *)
(*  - an instant (a JS Date, or the number Date.getTime() returns) is    *)
(*    its integer number of milliseconds since the epoch, a Z; only      *)
(*    valid dates are modelled (no NaN time value);                      *)
(*  - a JS Map is an association list kept in insertion order            *)
(*    (Module JsMap), because Array.from(map.values()) exposes it;       *)
(*  - the plain object used as the ledger is a gmap string Z together    *)
(*    with the inherited properties of Object.prototype, which a         *)
(*    bracket read falls back to;                                        *)
(*  - clocks, the file system and the network are inputs of the run      *)
(*    (Record World) and what the run does to them is a trace.           *)
(* ===================================================================== *)

From Stdlib Require Import ZArith List Sorting.Permutation Sorting.Sorted.
From stdpp Require Import gmap strings list fin_maps pretty sorting.

Local Open Scope string_scope.
Local Open Scope list_scope.
Local Open Scope Z_scope.

(* --------------------------------------------------------------------- *)
(* Data model (src/lib/types: StatusCheck, and the records built by      *)
(* findCurrentOutages)                                                   *)
(* --------------------------------------------------------------------- *)

(** Modelled from the spec: the declaration of StatusCheck
    (src/lib/types) is missing; following the specification's data model,
    a service check carries a status that is either ok or error, and an
    optional error text. *)
Inductive Status := StatusOk | StatusError.

Global Instance Status_eq_dec : EqDecision Status.
Proof. solve_decision. Defined.

Record ServiceCheck := {
  service : string;
  status : Status;
  error : option string;      (* undefined when absent *)
}.

Record StatusCheck := {
  timestamp : Z;              (* new Date(check.timestamp).getTime() *)
  checks : list ServiceCheck;
}.

(* Entries of the local serviceStatus map. The ok entry has no error
   field. *)
Record ServiceState := {
  state_status : Status;
  since : Z;
  state_error : option string;
}.

Record Outage := {
  outage_service : string;
  startTime : Z;
  duration : Z;
  outage_error : string;
  isOngoing : bool;
}.

(* --------------------------------------------------------------------- *)
(* JS Map: keys in insertion order                                       *)
(* --------------------------------------------------------------------- *)

Module JsMap.

Definition t (V : Type) : Type := list (string * V).

Definition empty {V} : t V := [].

Fixpoint get {V} (m : t V) (k : string) : option V :=
  match m with
  | [] => None
  | (k', v) :: m' => if decide (k' = k) then Some v else get m' k
  end.

Definition has {V} (m : t V) (k : string) : bool :=
  match get m k with Some _ => true | None => false end.

(* map.set(k, v): an existing key keeps its position, a new key goes
   last. *)
Fixpoint set {V} (m : t V) (k : string) (v : V) : t V :=
  match m with
  | [] => [(k, v)]
  | (k', v') :: m' =>
      if decide (k' = k) then (k, v) :: m' else (k', v') :: set m' k v
  end.

Fixpoint delete {V} (m : t V) (k : string) : t V :=
  match m with
  | [] => []
  | (k', v') :: m' =>
      if decide (k' = k) then delete m' k else (k', v') :: delete m' k
  end.

Definition values {V} (m : t V) : list V := m.*2.

End JsMap.

(* --------------------------------------------------------------------- *)
(* Array.prototype.sort with a comparator                                *)
(* --------------------------------------------------------------------- *)

(* The sort of the language is stable: elements that compare equal keep
   their relative order. With a consistent comparator the result is the
   one of any stable sort; a stable insertion sort is used here. *)
Section ArraySort.
Context {A : Type} (cmp : A → A → Z).

Fixpoint sort_insert (x : A) (l : list A) : list A :=
  match l with
  | [] => [x]
  | y :: l' => if cmp x y <=? 0 then x :: y :: l' else y :: sort_insert x l'
  end.

Fixpoint Array_sort (l : list A) : list A :=
  match l with
  | [] => []
  | x :: l' => sort_insert x (Array_sort l')
  end.
End ArraySort.

(* (a, b) => new Date(a.timestamp).getTime() - new Date(b.timestamp).getTime() *)
Definition by_timestamp (a b : StatusCheck) : Z := timestamp a - timestamp b.

(* --------------------------------------------------------------------- *)
(* findCurrentOutages                                                    *)
(* --------------------------------------------------------------------- *)

(* service.error || "Unknown error": undefined and the empty string are
   falsy. *)
Definition error_or_unknown (e : option string) : string :=
  match e with
  | Some s => if decide (s = "") then "Unknown error" else s
  | None => "Unknown error"
  end.

(* The two local maps of findCurrentOutages. *)
Record Tracking := {
  serviceStatus : gmap string ServiceState;
  outageMap : JsMap.t Outage;
}.

Definition tracking_init : Tracking :=
  {| serviceStatus := ∅; outageMap := JsMap.empty |}.

(* Body of the inner loop, for one service of one check. *)
Definition process_service (checkTime : Z) (tr : Tracking) (sc : ServiceCheck)
  : Tracking :=
  let serviceName := service sc in
  match status sc with
  | StatusError =>
      let fresh :=
        match serviceStatus tr !! serviceName with
        | None => true
        | Some st => bool_decide (state_status st = StatusOk)
        end in
      if fresh then
        {| serviceStatus :=
             <[serviceName :=
                 {| state_status := StatusError;
                    since := checkTime;
                    state_error := Some (error_or_unknown (error sc)) |}]>
               (serviceStatus tr);
           outageMap :=
             JsMap.set (outageMap tr) serviceName
               {| outage_service := serviceName;
                  startTime := checkTime;
                  duration := 0;
                  outage_error := error_or_unknown (error sc);
                  isOngoing := true |} |}
      else tr
  | StatusOk =>
      let failing :=
        match serviceStatus tr !! serviceName with
        | None => false
        | Some st => bool_decide (state_status st = StatusError)
        end in
      if failing then
        {| serviceStatus :=
             <[serviceName :=
                 {| state_status := StatusOk;
                    since := checkTime;
                    state_error := None |}]>
               (serviceStatus tr);
           outageMap := JsMap.delete (outageMap tr) serviceName |}
      else tr
  end.

(* Body of the outer loop: every service of one check, in order. *)
Definition process_check (tr : Tracking) (check : StatusCheck) : Tracking :=
  let checkTime := timestamp check in
  foldl (process_service checkTime) tr (checks check).

(* The last loop: outage.duration = now.getTime() - outage.startTime.getTime() *)
Definition set_duration (now : Z) (o : Outage) : Outage :=
  {| outage_service := outage_service o;
     startTime := startTime o;
     duration := now - startTime o;
     outage_error := outage_error o;
     isOngoing := isOngoing o |}.

(* [now] is the value of new Date() read after the replay. *)
Definition findCurrentOutages (now : Z) (statusChecks : list StatusCheck)
  : JsMap.t Outage :=
  let sorted := Array_sort by_timestamp statusChecks in
  let tr := foldl process_check tracking_init sorted in
  prod_map id (set_duration now) <$> outageMap tr.

(* --------------------------------------------------------------------- *)
(* formatDuration                                                        *)
(* --------------------------------------------------------------------- *)

(* Math.round(milliseconds / 1000 / 60) on an integer amount of
   milliseconds: the nearest integer, a half rounding towards +infinity.
   The program computes the quotient in double precision; an exact half
   is computed exactly, and for amounts up to 10^15 ms (tens of
   thousands of years) the rounding error of the two divisions stays
   below the distance 1/60000 from any other quotient to the nearest
   half, so the rounded double is the integer below. *)
Definition Math_round_minutes (milliseconds : Z) : Z :=
  (milliseconds + 30000) / 60000.

(* Number.prototype.toString() of an integer: its decimal numeral. *)
Definition Number_toString (n : Z) : string := pretty n.

Fixpoint string_repeat (n : nat) (s : string) : string :=
  match n with
  | O => ""
  | S n' => s +:+ string_repeat n' s
  end.

(* String.prototype.padStart(targetLength, padString) *)
Definition padStart (targetLength : nat) (padString : string) (s : string)
  : string :=
  let len := String.length s in
  if (targetLength <=? len)%nat then s
  else if decide (padString = "") then s
  else
    let fill := (targetLength - len)%nat in
    String.substring 0 fill (string_repeat fill padString) +:+ s.

Definition formatDuration (milliseconds : Z) : string :=
  let totalMinutes := Math_round_minutes milliseconds in
  if 60 <=? totalMinutes then
    let hours := totalMinutes / 60 in          (* Math.floor(totalMinutes / 60) *)
    let minutes := Z.rem totalMinutes 60 in    (* totalMinutes % 60 *)
    Number_toString hours +:+ "hr " +:+
      padStart 2 "0" (Number_toString minutes) +:+ "min"
  else
    Number_toString totalMinutes +:+ "min".

(* --------------------------------------------------------------------- *)
(* The ledger object (reported-outages.json)                             *)
(* --------------------------------------------------------------------- *)

(* Own properties of the ledger object: service name to the number
   stored. The object is created by an object spread, so its prototype
   is Object.prototype, and reading a name it does not own yields the
   inherited property of that name when there is one. *)
Definition Object_prototype_properties : list string :=
  [ "constructor"; "__defineGetter__"; "__defineSetter__"; "hasOwnProperty";
    "__lookupGetter__"; "__lookupSetter__"; "isPrototypeOf";
    "propertyIsEnumerable"; "toString"; "valueOf"; "__proto__";
    "toLocaleString" ].

(* Truthiness of obj[name]: an own number is truthy unless it is 0; an
   inherited property of Object.prototype is a function or an object,
   hence truthy; undefined is falsy. *)
Definition truthy_property (obj : gmap string Z) (name : string) : bool :=
  match obj !! name with
  | Some v => negb (v =? 0)
  | None => bool_decide (name ∈ Object_prototype_properties)
  end.

(* The names a for-in loop visits: the own enumerable properties (the
   inherited ones are not enumerable). *)
Definition own_keys (obj : gmap string Z) : list string :=
  (map_to_list obj).*1.

(* --------------------------------------------------------------------- *)
(* sendSlackNotification                                                 *)
(* --------------------------------------------------------------------- *)

Definition NOTIFICATION_THRESHOLD : Z := 20 * 60 * 1000.

(* "Remove resolved outages from tracking": the body of the for-in loop,
   then the loop over the keys of the copy of the ledger. *)
Definition forget_if_resolved {V} (currentOutages : JsMap.t V)
    (updatedReportedOutages : gmap string Z) (serviceName : string)
  : gmap string Z :=
  if JsMap.has currentOutages serviceName
  then updatedReportedOutages
  else delete serviceName updatedReportedOutages.

Definition remove_resolved {V} (currentOutages : JsMap.t V)
    (reportedOutages : gmap string Z) : gmap string Z :=
  foldl (forget_if_resolved currentOutages)
    reportedOutages (own_keys reportedOutages).

Definition longOutages (currentOutages : JsMap.t Outage) : list Outage :=
  filter (λ outage, NOTIFICATION_THRESHOLD ≤ duration outage)
    (JsMap.values currentOutages).

Definition newOutages (updatedReportedOutages : gmap string Z)
    (long : list Outage) : list Outage :=
  filter
    (λ outage, ¬ truthy_property updatedReportedOutages (outage_service outage))
    long.

(* Slack Block Kit blocks, as the script builds them. *)
Inductive SlackBlock :=
  | header (text : string)
  | section (text : string)
  | divider.

Definition newline : string := String (Ascii.ascii_of_nat 10) "".

(* What the run reads from its environment. *)
Inductive Delivery :=
  | Responded (status : Z)   (* ky.post resolved with this HTTP status *)
  | Rejected.                (* ky.post threw: network failure, timeout,
                                or the client's own HTTP error *)

Record World := {
  SLACK_WEBHOOK_URL : option string;        (* process.env value *)
  reported_file : option (gmap string Z);   (* None: absent or unreadable *)
  status_file : option (list StatusCheck);  (* None: read or parse failure *)
  now : Z;                                  (* new Date() of the replay *)
  delivery : Delivery;
  Date_now : nat → Z;                       (* successive Date.now() readings *)
}.

(* What the run does. *)
Inductive Effect :=
  | WriteReportedOutages (reportedOutages : gmap string Z)
  | Post (url : string) (blocks : list SlackBlock).

Inductive Exit :=
  | Returned                 (* the script runs to its end: exit status 0 *)
  | ProcessExit (code : Z).

Definition loadReportedOutages (w : World) : gmap string Z :=
  match reported_file w with
  | Some data => data
  | None => ∅
  end.

(* newOutages.forEach(outage => updatedReportedOutages[outage.service] = Date.now()) *)
Fixpoint stamp_reported (clock : nat → Z) (i : nat) (outages : list Outage)
    (updatedReportedOutages : gmap string Z) : gmap string Z :=
  match outages with
  | [] => updatedReportedOutages
  | outage :: rest =>
      stamp_reported clock (S i) rest
        (<[outage_service outage := clock i]> updatedReportedOutages)
  end.

Section Run.
(* Date.prototype.toLocaleString depends on the host's locale. *)
Variable toLocaleString : Z → string.

Definition outage_blocks (outage : Outage) : list SlackBlock :=
  [ section
      ("*Service:* " +:+ outage_service outage +:+ newline +:+
       "*Duration:* " +:+ formatDuration (duration outage) +:+ newline +:+
       "*Start Time:* " +:+ toLocaleString (startTime outage) +:+ newline +:+
       "*Error:* " +:+ outage_error outage);
    divider ].

Definition message_blocks (outages : list Outage) : list SlackBlock :=
  header "🚨 Service Outage Notification" :: (outages ≫= outage_blocks).

Definition sendSlackNotification (w : World) : list Effect * Exit :=
  let reportedOutages := loadReportedOutages w in
  match status_file w with
  | None => ([], ProcessExit 1)
  | Some statusChecks =>
      let currentOutages := findCurrentOutages (now w) statusChecks in
      let updatedReportedOutages :=
        remove_resolved currentOutages reportedOutages in
      let long := longOutages currentOutages in
      if bool_decide (long = []) then
        ([WriteReportedOutages updatedReportedOutages], Returned)
      else
        let new := newOutages updatedReportedOutages long in
        if bool_decide (new = []) then
          ([WriteReportedOutages updatedReportedOutages], Returned)
        else
          let blocks := message_blocks new in
          match SLACK_WEBHOOK_URL w with
          | Some url =>
              if decide (url = "") then
                ([WriteReportedOutages updatedReportedOutages], Returned)
              else
                match delivery w with
                | Rejected => ([Post url blocks], ProcessExit 1)
                | Responded status =>
                    if (200 <=? status) && (status <? 300) then
                      ([Post url blocks;
                        WriteReportedOutages
                          (stamp_reported (Date_now w) 0 new
                             updatedReportedOutages)],
                       Returned)
                    else
                      ([Post url blocks;
                        WriteReportedOutages updatedReportedOutages],
                       Returned)
                end
          | None =>
              ([WriteReportedOutages updatedReportedOutages], Returned)
          end
  end.

(* The script: the guard on the webhook URL, then the run. *)
Definition script (w : World) : list Effect * Exit :=
  match SLACK_WEBHOOK_URL w with
  | None => ([], ProcessExit 1)
  | Some url =>
      if decide (url = "") then ([], ProcessExit 1)
      else sendSlackNotification w
  end.
End Run.

(* --------------------------------------------------------------------- *)
(* Vocabulary of the specification                                       *)
(* --------------------------------------------------------------------- *)

(* One service check together with the instant of its observation. *)
Definition Event : Type := Z * ServiceCheck.

Definition events_of (check : StatusCheck) : list Event :=
  (λ sc, (timestamp check, sc)) <$> checks check.

(* All service checks of all observations, in chronological order. *)
Definition chronological (statusChecks : list StatusCheck) : list Event :=
  Array_sort by_timestamp statusChecks ≫= events_of.

Definition is_error (e : Event) : Prop := status e.2 = StatusError.

Global Instance is_error_dec e : Decision (is_error e).
Proof. unfold is_error. apply _. Defined.

(* The events of one service. *)
Definition service_events (s : string) (evs : list Event) : list Event :=
  filter (λ e, service e.2 = s) evs.


(* The longest suffix made of errors only. *)
Fixpoint trailing_errors (evs : list Event) : list Event :=
  match evs with
  | [] => []
  | e :: evs' =>
      if decide (Forall is_error (e :: evs')) then e :: evs'
      else trailing_errors evs'
  end.

(* The outage recorded at the onset event of a failure run. *)
Definition outage_at (e : Event) : Outage :=
  {| outage_service := service e.2;
     startTime := e.1;
     duration := 0;
     outage_error := error_or_unknown (error e.2);
     isOngoing := true |}.

Definition is_failing (m : gmap string ServiceState) (s : string) : bool :=
  match m !! s with
  | Some st => bool_decide (state_status st = StatusError)
  | None => false
  end.

(* The character of a decimal digit, and the two-digit numeral of a
   number below 100. *)
Definition digit_char (d : Z) : Ascii.ascii := Ascii.ascii_of_nat (48 + Z.to_nat d).

Definition two_digits (n : Z) : string :=
  String (digit_char (n / 10)) (String (digit_char (n mod 10)) "").

(* [m] is the number of whole minutes nearest to [milliseconds], a half
   minute counting for a whole one. *)
Definition nearest_minute (milliseconds m : Z) : Prop :=
  60000 * m - 30000 ≤ milliseconds < 60000 * m + 30000.

(* A delivery failure: the post is rejected, or it resolves with a status
   outside 200..299. *)
Definition delivery_failed (d : Delivery) : Prop :=
  match d with
  | Rejected => True
  | Responded status => ¬ (200 ≤ status < 300)
  end.

(* Ascending order of service names. *)
Definition names_ascending (l : list Outage) : Prop :=
  Sorted (λ a b, String.leb (outage_service a) (outage_service b)) l.

(* The order of the sorted array. *)
Definition earlier_or_same (a b : StatusCheck) : Prop :=
  timestamp a ≤ timestamp b.

(* The checks observed at instant [t], in their order in [l]. *)
Definition observed_at (t : Z) (l : list StatusCheck) : list StatusCheck :=
  filter (λ c, timestamp c = t) l.

(* The two nested loops, as one pass over the events. *)
Definition replay (tr : Tracking) (evs : list Event) : Tracking :=
  foldl (λ tr e, process_service e.1 tr e.2) tr evs.

(* What the replay has recorded for service [s] after the events [evs]:
   the service is marked failing exactly when its events end with errors,
   and its outage is the one recorded at the first of these. *)
Definition tracks (tr : Tracking) (evs : list Event) (s : string) : Prop :=
  is_failing (serviceStatus tr) s
    = bool_decide (trailing_errors (service_events s evs) ≠ []) ∧
  JsMap.get (outageMap tr) s
    = outage_at <$> head (trailing_errors (service_events s evs)).

(* --------------------------------------------------------------------- *)
(* Concrete observations used in the examples                            *)
(* --------------------------------------------------------------------- *)

Definition check_ok (s : string) : ServiceCheck :=
  {| service := s; status := StatusOk; error := None |}.

Definition check_error (s : string) (text : option string) : ServiceCheck :=
  {| service := s; status := StatusError; error := text |}.

Definition observation (t : Z) (cs : list ServiceCheck) : StatusCheck :=
  {| timestamp := t; checks := cs |}.

Definition minutes (n : Z) : Z := n * 60 * 1000.

(* svcA is fine at 0, fails at 5 min and is still failing at 30 min, with
   another error text. *)
Definition svcA_history : list StatusCheck :=
  [ observation (minutes 0) [check_ok "svcA"];
    observation (minutes 5) [check_error "svcA" (Some "timeout")];
    observation (minutes 30) [check_error "svcA" (Some "connection refused")] ].

(* The same observations as they may come out of the log, not in order. *)
Definition svcA_history_shuffled : list StatusCheck :=
  [ observation (minutes 30) [check_error "svcA" (Some "connection refused")];
    observation (minutes 0) [check_ok "svcA"];
    observation (minutes 5) [check_error "svcA" (Some "timeout")] ].

(* Two observations with the same timestamp that disagree on svcA. *)
Definition tie_error_first : list StatusCheck :=
  [ observation 0 [check_error "svcA" None];
    observation 0 [check_ok "svcA"] ].

Definition tie_ok_first : list StatusCheck :=
  [ observation 0 [check_ok "svcA"];
    observation 0 [check_error "svcA" None] ].

(* An observation stamped after the instant of the run. *)
Definition from_the_future : list StatusCheck :=
  [ observation 100 [check_error "svcA" (Some "timeout")] ].

(* svcB and svcA both start failing at 0, svcB first. *)
Definition two_failing : list StatusCheck :=
  [ observation 0 [ check_error "svcB" (Some "timeout");
                    check_error "svcA" (Some "timeout") ] ].

(* The world of a run over [two_failing], half an hour later, with a
   ledger that still tracks a service that has recovered since. *)
Definition failing_world (d : Delivery) : World :=
  {| SLACK_WEBHOOK_URL := Some "https://hooks.example/T000";
     reported_file := Some {[ "svcOld" := 1700000000000 ]};
     status_file := Some two_failing;
     now := minutes 30;
     delivery := d;
     Date_now := λ _, minutes 30 |}.

(* A run with nothing to report: svcA has been failing for 26 minutes
   and was reported already. *)
Definition quiet_world : World :=
  {| SLACK_WEBHOOK_URL := Some "https://hooks.example/T000";
     reported_file := Some {[ "svcA" := 1700000000000; "svcOld" := 1700000000000 ]};
     status_file := Some svcA_history;
     now := minutes 31;
     delivery := Rejected;
     Date_now := λ _, minutes 31 |}.

(* --------------------------------------------------------------------- *)
(* readStatusChecks                                                      *)
(* --------------------------------------------------------------------- *)

(* The text of the status file as the string the program receives: a
   sequence of UTF-16 code units. *)
Definition JsString : Type := list N.

(* The code units String.prototype.trim removes: WhiteSpace (TAB, VT, FF,
   ZWNBSP and the space separators) and LineTerminator (LF, CR, LS, PS). *)
Definition is_white_space (c : N) : bool :=
  bool_decide (c ∈ [9; 10; 11; 12; 13; 32; 160; 5760; 8232; 8233; 8239;
                     8287; 12288; 65279]%N)
  || ((8192 <=? c)%N && (c <=? 8202)%N).

Fixpoint trimStart (s : JsString) : JsString :=
  match s with
  | [] => []
  | c :: s' => if is_white_space c then trimStart s' else s
  end.

Definition trimEnd (s : JsString) : JsString :=
  reverse (trimStart (reverse s)).

Definition String_trim (s : JsString) : JsString := trimEnd (trimStart s).

(* s.split("\n"): the pieces between line feeds; a string without line
   feed, the empty one included, is a single piece. *)
Fixpoint split_lines (s : JsString) : list JsString :=
  match s with
  | [] => [[]]
  | c :: s' =>
      if (c =? 10)%N then [] :: split_lines s'
      else
        match split_lines s' with
        | line :: rest => (c :: line) :: rest
        | [] => [[c]]
        end
  end.

Section ReadStatusChecks.
(* JSON.parse of one line, read at the type StatusCheck; None when it
   throws. *)
Variable JSON_parse : JsString → option StatusCheck.

(* [content] is None when the file cannot be read. An exception thrown
   for one line is the exception of the whole read. *)
Definition readStatusChecks (content : option JsString)
  : option (list StatusCheck) :=
  match content with
  | None => None
  | Some text => mapM JSON_parse (split_lines (String_trim text))
  end.
End ReadStatusChecks.

(* --------------------------------------------------------------------- *)
(* Further vocabulary                                                    *)
(* --------------------------------------------------------------------- *)

(* An observation reduced to its checks of service [s]. *)
Definition restrict_to_service (s : string) (check : StatusCheck)
  : StatusCheck :=
  {| timestamp := timestamp check;
     checks := filter (λ sc, service sc = s) (checks check) |}.

(* The effect of one more service check, observed at [t], on the outages
   as they are returned at [now]: an ok check removes the outage of its
   service; an error check opens an outage, listed last, unless the
   service has one already. *)
Definition advance (now t : Z) (outages : JsMap.t Outage) (sc : ServiceCheck)
  : JsMap.t Outage :=
  match status sc with
  | StatusOk => JsMap.delete outages (service sc)
  | StatusError =>
      if JsMap.has outages (service sc) then outages
      else
        outages ++
          [(service sc,
            {| outage_service := service sc;
               startTime := t;
               duration := now - t;
               outage_error := error_or_unknown (error sc);
               isOngoing := true |})]
  end.

(* The ledger a run leaves in the file, if it writes one. *)
Definition written_ledger (effects : list Effect) : option (gmap string Z) :=
  last (omap (λ eff, match eff with
                     | WriteReportedOutages l => Some l
                     | Post _ _ => None
                     end) effects).

(* The outages a run selects for an alert. *)
Definition toAlert_of (now : Z) (statusChecks : list StatusCheck)
    (reportedOutages : gmap string Z) : list Outage :=
  let currentOutages := findCurrentOutages now statusChecks in
  newOutages (remove_resolved currentOutages reportedOutages)
    (longOutages currentOutages).

(* A toy decoder for the examples: a line made of the digits of a number
   n stands for the observation at instant n in which svcA fails. *)
Definition toy_parse (line : JsString) : option StatusCheck :=
  match line with
  | [] => None
  | _ =>
      if forallb (λ c, (48 <=? c)%N && (c <=? 57)%N) line then
        Some (observation
                (foldl (λ acc c, 10 * acc + Z.of_N (c - 48)) 0 line)
                [check_error "svcA" None])
      else None
  end.

(* A run over [two_failing] whose post succeeds. *)
Definition delivered_world : World :=
  {| SLACK_WEBHOOK_URL := Some "https://hooks.example/T000";
     reported_file := Some {[ "svcOld" := 1700000000000 ]};
     status_file := Some two_failing;
     now := minutes 30;
     delivery := Responded 200;
     Date_now := λ i, 1700000000000 + Z.of_nat i |}.

(* Two arrangements of the same observations that agree on the order of
   the two observations made at instant 0. *)
Definition tie_then_later : list StatusCheck :=
  tie_error_first ++ [observation 5 [check_error "svcB" None]].

Definition tie_around_later : list StatusCheck :=
  [ observation 0 [check_error "svcA" None];
    observation 5 [check_error "svcB" None];
    observation 0 [check_ok "svcA"] ].

(* svcA recovers ten minutes after [svcA_history]. *)
Definition svcA_recovery : StatusCheck :=
  observation (minutes 40) [check_ok "svcA"].

(* svcC fails as well, from minute 10 on. *)
Definition three_failing : list StatusCheck :=
  two_failing ++ [observation (minutes 10) [check_error "svcC" (Some "refused")]].

(* The run that follows [delivered_world] five minutes later, reading
   the ledger that run has written. *)
Definition following_world : World :=
  {| SLACK_WEBHOOK_URL := Some "https://hooks.example/T000";
     reported_file :=
       Some {[ "svcB" := 1700000000000; "svcA" := 1700000000001 ]};
     status_file := Some three_failing;
     now := minutes 35;
     delivery := Responded 200;
     Date_now := λ i, 1700000300000 + Z.of_nat i |}.

(* A run that finds no ledger file. *)
Definition first_world : World :=
  {| SLACK_WEBHOOK_URL := Some "https://hooks.example/T000";
     reported_file := None;
     status_file := Some two_failing;
     now := minutes 30;
     delivery := Responded 200;
     Date_now := λ i, 1700000000000 + Z.of_nat i |}.

(* ===================================================================== *)
(* Lemmas                                                                *)
(* ===================================================================== *)

(* --------------------------------------------------------------------- *)
(* JsMap                                                                 *)
(* --------------------------------------------------------------------- *)

Section JsMapFacts.
Context {V : Type}.
Implicit Types (m : JsMap.t V) (k : string) (v : V).

Lemma JsMap_get_set_eq m k v : JsMap.get (JsMap.set m k v) k = Some v.
Proof.
  induction m as [|[k' v'] m IH]; simpl.
  - by rewrite decide_True.
  - destruct (decide (k' = k)) as [->|Hne]; simpl.
    + by rewrite decide_True.
    + by rewrite decide_False.
Qed.

Lemma JsMap_get_set_ne m k k' v :
  k ≠ k' → JsMap.get (JsMap.set m k v) k' = JsMap.get m k'.
Proof.
  intros Hne. induction m as [|[k0 v0] m IH]; simpl.
  - by rewrite decide_False.
  - destruct (decide (k0 = k)) as [->|Hne0]; simpl.
    + by rewrite !decide_False.
    + by rewrite IH.
Qed.

Lemma JsMap_get_delete_eq m k : JsMap.get (JsMap.delete m k) k = None.
Proof.
  induction m as [|[k' v'] m IH]; simpl; [done|].
  destruct (decide (k' = k)) as [->|Hne]; simpl; [done|].
  by rewrite decide_False.
Qed.

Lemma JsMap_get_delete_ne m k k' :
  k ≠ k' → JsMap.get (JsMap.delete m k) k' = JsMap.get m k'.
Proof.
  intros Hne. induction m as [|[k0 v0] m IH]; simpl; [done|].
  destruct (decide (k0 = k)) as [->|Hne0]; simpl.
  - by rewrite decide_False.
  - by rewrite IH.
Qed.

Lemma JsMap_elem_of_set m k v k' v' :
  (k', v') ∈ JsMap.set m k v → (k', v') = (k, v) ∨ (k', v') ∈ m.
Proof.
  induction m as [|[k0 v0] m IH]; simpl.
  - intros ->%list_elem_of_singleton. by left.
  - destruct (decide (k0 = k)) as [->|Hne0].
    + intros [->|?]%elem_of_cons; [by left|right; by apply elem_of_cons; right].
    + intros [->|Hin]%elem_of_cons.
      * right. by apply elem_of_cons; left.
      * destruct (IH Hin); [by left|right; by apply elem_of_cons; right].
Qed.

Lemma JsMap_elem_of_delete m k k' v' :
  (k', v') ∈ JsMap.delete m k → (k', v') ∈ m.
Proof.
  induction m as [|[k0 v0] m IH]; simpl; [done|].
  destruct (decide (k0 = k)) as [->|Hne0].
  - intros Hin. apply elem_of_cons; right. by apply IH.
  - intros [->|Hin]%elem_of_cons; apply elem_of_cons; [by left|right; by apply IH].
Qed.

Lemma JsMap_get_fmap {W} (f : V → W) m k :
  JsMap.get (prod_map id f <$> m) k = f <$> JsMap.get m k.
Proof.
  induction m as [|[k' v'] m IH]; simpl; [done|].
  destruct (decide (k' = k)); simpl; [done|apply IH].
Qed.

Lemma JsMap_has_get m k : JsMap.has m k = true ↔ is_Some (JsMap.get m k).
Proof.
  unfold JsMap.has. destruct (JsMap.get m k); split; intros H; try done.
Qed.
End JsMapFacts.

(* --------------------------------------------------------------------- *)
(* The chronological sort                                                *)
(* --------------------------------------------------------------------- *)

Section ArraySortFacts.
Context {A : Type} (cmp : A → A → Z).

Lemma sort_insert_Permutation x l : sort_insert cmp x l ≡ₚ x :: l.
Proof.
  induction l as [|y l IH]; simpl; [done|].
  destruct (cmp x y <=? 0); [done|].
  rewrite IH. apply Permutation_swap.
Qed.

Lemma Array_sort_Permutation l : Array_sort cmp l ≡ₚ l.
Proof.
  induction l as [|x l IH]; simpl; [done|].
  by rewrite sort_insert_Permutation, IH.
Qed.
End ArraySortFacts.


Lemma sort_insert_ordered x l :
  StronglySorted earlier_or_same l →
  StronglySorted earlier_or_same (sort_insert by_timestamp x l).
Proof.
  induction 1 as [|y l Hl IH Hy]; simpl.
  - repeat constructor.
  - unfold by_timestamp at 1.
    destruct (Z.leb_spec (timestamp x - timestamp y) 0) as [Hle|Hgt].
    + constructor; [by constructor|].
      constructor; [unfold earlier_or_same; lia|].
      eapply Forall_impl; [exact Hy|].
      unfold earlier_or_same. intros z Hz. lia.
    + constructor; [exact IH|].
      rewrite sort_insert_Permutation.
      constructor; [unfold earlier_or_same; lia|exact Hy].
Qed.

Lemma Array_sort_ordered l :
  StronglySorted earlier_or_same (Array_sort by_timestamp l).
Proof.
  induction l as [|x l IH]; simpl; [constructor|by apply sort_insert_ordered].
Qed.

(* Stability: observations of the same instant keep their input order. *)
Lemma sort_insert_observed_at t x l :
  observed_at t (sort_insert by_timestamp x l) = observed_at t (x :: l).
Proof.
  unfold observed_at.
  induction l as [|y l IH]; simpl; [done|].
  unfold by_timestamp at 1.
  destruct (Z.leb_spec (timestamp x - timestamp y) 0) as [Hle|Hgt]; [done|].
  rewrite (filter_cons _ y (sort_insert _ _ _)), IH.
  rewrite !filter_cons.
  repeat case_decide; try done; lia.
Qed.

Lemma Array_sort_observed_at t l :
  observed_at t (Array_sort by_timestamp l) = observed_at t l.
Proof.
  induction l as [|x l IH]; simpl; [done|].
  rewrite sort_insert_observed_at. unfold observed_at in *.
  by rewrite !filter_cons, IH.
Qed.

(* Two chronologically ordered lists with the same observations at every
   instant, in the same order, are the same list. *)
Lemma ordered_observed_at_eq l1 l2 :
  StronglySorted earlier_or_same l1 →
  StronglySorted earlier_or_same l2 →
  (∀ t, observed_at t l1 = observed_at t l2) →
  l1 = l2.
Proof.
  intros H1. revert l2.
  induction H1 as [|a l1 Hl1 IH Ha]; intros l2 H2 Heq.
  - destruct l2 as [|b l2]; [done|].
    specialize (Heq (timestamp b)). unfold observed_at in Heq.
    rewrite filter_nil, filter_cons_True in Heq by done. done.
  - destruct H2 as [|b l2 Hl2 Hb].
    + specialize (Heq (timestamp a)). unfold observed_at in Heq.
      rewrite filter_nil, filter_cons_True in Heq by done. done.
    + assert (timestamp b ≤ timestamp a) as Hba.
      { pose proof (Heq (timestamp a)) as E. unfold observed_at in E.
        rewrite (filter_cons_True _ a) in E by done.
        assert (a ∈ b :: l2) as Hin.
        { eapply (list_elem_of_filter (λ c, timestamp c = timestamp a)).
          rewrite <- E. by left. }
        apply elem_of_cons in Hin as [->|Hin]; [lia|].
        rewrite Forall_forall in Hb. by apply Hb. }
      assert (timestamp a ≤ timestamp b) as Hab.
      { pose proof (Heq (timestamp b)) as E. unfold observed_at in E.
        rewrite (filter_cons_True _ b) in E by done.
        assert (b ∈ a :: l1) as Hin.
        { eapply (list_elem_of_filter (λ c, timestamp c = timestamp b)).
          rewrite E. by left. }
        apply elem_of_cons in Hin as [->|Hin]; [lia|].
        rewrite Forall_forall in Ha. by apply Ha. }
      assert (a = b) as ->.
      { pose proof (Heq (timestamp a)) as E. unfold observed_at in E.
        rewrite !filter_cons_True in E by lia. congruence. }
      f_equal. apply IH; [done|].
      intros t. specialize (Heq t). unfold observed_at in *.
      rewrite !filter_cons in Heq. case_decide; congruence.
Qed.

(* Any stable chronological arrangement of the input is the sorted array:
   the model does not depend on the sorting algorithm of the engine. *)
Lemma Array_sort_by_timestamp_stable_sort sorted l :
  StronglySorted earlier_or_same sorted →
  (∀ t, observed_at t sorted = observed_at t l) →
  Array_sort by_timestamp l = sorted.
Proof.
  intros Hsorted Hstable.
  apply ordered_observed_at_eq; [apply Array_sort_ordered|done|].
  intros t. by rewrite Array_sort_observed_at.
Qed.

(* The sort is determined by the observations and, among those of one
   instant, their input order. *)
Lemma Array_sort_by_timestamp_unique l1 l2 :
  (∀ t, observed_at t l1 = observed_at t l2) →
  Array_sort by_timestamp l1 = Array_sort by_timestamp l2.
Proof.
  intros Heq. apply ordered_observed_at_eq; try apply Array_sort_ordered.
  intros t. by rewrite !Array_sort_observed_at.
Qed.

(* With pairwise distinct timestamps a permutation changes nothing at any
   instant. *)
Lemma observed_at_Permutation t l1 l2 :
  NoDup (timestamp <$> l1) → l1 ≡ₚ l2 →
  observed_at t l1 = observed_at t l2.
Proof.
  intros Hnd Hp.
  assert (∀ l, NoDup (timestamp <$> l) →
            (length (observed_at t l) ≤ 1)%nat) as Hlen.
  { clear. intros l. unfold observed_at.
    induction l as [|c l IH]; simpl; [lia|].
    intros [Hc Hnd]%NoDup_cons. specialize (IH Hnd).
    rewrite filter_cons. case_decide as Ht; [|done]. simpl.
    destruct (filter _ l) as [|d ?] eqn:E; simpl in *; [lia|].
    exfalso. apply Hc.
    assert (d ∈ filter (λ c0, timestamp c0 = t) l) as Hd by (rewrite E; by left).
    apply list_elem_of_filter in Hd as [Hd1 Hd2].
    apply list_elem_of_fmap. exists d. split; [congruence|done]. }
  assert (observed_at t l1 ≡ₚ observed_at t l2) as Hpf.
  { unfold observed_at. by rewrite Hp. }
  pose proof (Hlen l1 Hnd) as H1.
  assert (NoDup (timestamp <$> l2)) as Hnd2 by (by rewrite <- Hp).
  pose proof (Hlen l2 Hnd2) as H2.
  destruct (observed_at t l1) as [|a [|??]], (observed_at t l2) as [|b [|??]];
    simpl in *; try lia.
  - done.
  - by apply Permutation_nil_cons in Hpf.
  - symmetry in Hpf. by apply Permutation_nil_cons in Hpf.
  - by apply Permutation_singleton_inj in Hpf as ->.
Qed.

(* --------------------------------------------------------------------- *)
(* The replay of findCurrentOutages                                      *)
(* --------------------------------------------------------------------- *)


Lemma process_check_replay tr check :
  process_check tr check = replay tr (events_of check).
Proof.
  unfold process_check, replay, events_of.
  generalize (checks check). intros l. revert tr.
  induction l as [|sc l IH]; intros tr; simpl; [done|apply IH].
Qed.

Lemma process_checks_replay tr l :
  foldl process_check tr l = replay tr (l ≫= events_of).
Proof.
  revert tr. induction l as [|c l IH]; intros tr; simpl; [done|].
  rewrite IH, process_check_replay. unfold replay. by rewrite foldl_app.
Qed.

Lemma findCurrentOutages_replay now statusChecks :
  findCurrentOutages now statusChecks =
  prod_map id (set_duration now) <$>
    outageMap (replay tracking_init (chronological statusChecks)).
Proof. unfold findCurrentOutages. by rewrite process_checks_replay. Qed.

Lemma replay_snoc tr evs e :
  replay tr (evs ++ [e]) = process_service e.1 (replay tr evs) e.2.
Proof. unfold replay. by rewrite foldl_app. Qed.

Lemma trailing_errors_snoc evs e :
  trailing_errors (evs ++ [e]) =
  if decide (is_error e) then trailing_errors evs ++ [e] else [].
Proof.
  induction evs as [|a evs IH]; simpl.
  - destruct (decide (is_error e)) as [He|He].
    + rewrite decide_True; [done|]. by repeat constructor.
    + rewrite decide_False; [done|]. by intros [? _]%Forall_cons.
  - rewrite IH.
    destruct (decide (Forall is_error (a :: evs ++ [e]))) as [Hall|Hall].
    + apply Forall_cons in Hall as [Ha [Hevs He%Forall_inv]%Forall_app].
      rewrite (decide_True (P := is_error e)) by done.
      rewrite decide_True; [done|]. by constructor.
    + destruct (decide (is_error e)) as [He|He]; [|done].
      rewrite decide_False; [done|].
      intros [Ha Hevs]%Forall_cons. apply Hall.
      constructor; [done|]. apply Forall_app. split; [done|].
      by constructor.
Qed.





Lemma process_service_other t tr sc s :
  service sc ≠ s →
  is_failing (serviceStatus (process_service t tr sc)) s
    = is_failing (serviceStatus tr) s ∧
  JsMap.get (outageMap (process_service t tr sc)) s
    = JsMap.get (outageMap tr) s.
Proof.
  intros Hne. unfold process_service.
  destruct (status sc);
    match goal with |- context [if ?b then _ else _] => destruct b end;
    simpl; try done; unfold is_failing;
    rewrite lookup_insert_ne by done; split; try done.
  - by apply JsMap_get_delete_ne.
  - by apply JsMap_get_set_ne.
Qed.

Lemma service_events_snoc s evs e :
  service_events s (evs ++ [e]) =
  if decide (service e.2 = s) then service_events s evs ++ [e]
  else service_events s evs.
Proof.
  unfold service_events. rewrite filter_app, filter_cons, filter_nil.
  case_decide; [done|by rewrite app_nil_r].
Qed.

Lemma process_service_tracks tr evs e s :
  tracks tr evs s → tracks (process_service e.1 tr e.2) (evs ++ [e]) s.
Proof.
  intros [Hfail Hget]. unfold tracks in *.
  rewrite service_events_snoc.
  case_decide as Hs.
  - rewrite trailing_errors_snoc. unfold process_service. rewrite Hs.
    generalize dependent (trailing_errors (service_events s evs)).
    intros run Hfail Hget.
    destruct (decide (is_error e)) as [He|He].
    + (* error *)
      unfold is_error in He. rewrite He.
      assert ((match serviceStatus tr !! s with
               | Some st => bool_decide (state_status st = StatusOk)
               | None => true
               end) = negb (is_failing (serviceStatus tr) s)) as ->.
      { unfold is_failing. destruct (serviceStatus tr !! s) as [st|]; [|done].
        destruct (state_status st); done. }
      destruct (is_failing (serviceStatus tr) s) eqn:Hf; simpl.
      * symmetry in Hfail. apply bool_decide_eq_true in Hfail.
        rewrite Hf, Hget. destruct run; [done|]. simpl.
        by split.
      * symmetry in Hfail. apply bool_decide_eq_false in Hfail.
        assert (run = []) as -> by (destruct run; [done|by exfalso; apply Hfail]).
        unfold is_failing. rewrite lookup_insert_eq. simpl.
        rewrite JsMap_get_set_eq. split; [done|].
        by rewrite <- Hs; destruct e.
    + (* ok *)
      assert (status e.2 = StatusOk) as ->.
      { unfold is_error in He. by destruct (status e.2). }
      change (match serviceStatus tr !! s with
              | Some st => bool_decide (state_status st = StatusError)
              | None => false
              end) with (is_failing (serviceStatus tr) s).
      destruct (is_failing (serviceStatus tr) s) eqn:Hf; simpl.
      * unfold is_failing. rewrite lookup_insert_eq. simpl.
        split; [done|apply JsMap_get_delete_eq].
      * rewrite Hf. split; [done|]. rewrite Hget.
        symmetry in Hfail. apply bool_decide_eq_false in Hfail.
        destruct run; [done|]. by exfalso; apply Hfail.
  - destruct (process_service_other e.1 tr e.2 s Hs) as [-> ->]. done.
Qed.

Lemma replay_tracks evs s : tracks (replay tracking_init evs) evs s.
Proof.
  induction evs as [|e evs IH] using rev_ind.
  - by split.
  - rewrite replay_snoc. by apply process_service_tracks.
Qed.

Lemma findCurrentOutages_get now statusChecks s :
  JsMap.get (findCurrentOutages now statusChecks) s =
  (λ e, set_duration now (outage_at e)) <$>
    head (trailing_errors (service_events s (chronological statusChecks))).
Proof.
  rewrite findCurrentOutages_replay, JsMap_get_fmap.
  destruct (replay_tracks (chronological statusChecks) s) as [_ ->].
  by destruct (head _).
Qed.

Lemma chronological_elem_of statusChecks e :
  e ∈ chronological statusChecks ↔
  ∃ c, c ∈ statusChecks ∧ timestamp c = e.1 ∧ e.2 ∈ checks c.
Proof.
  unfold chronological. rewrite list_elem_of_bind. split.
  - intros (c & He & Hc). exists c.
    rewrite Array_sort_Permutation in Hc. split; [done|].
    unfold events_of in He. apply list_elem_of_fmap in He as (sc & -> & Hsc).
    done.
  - intros (c & Hc & Ht & Hsc). exists c.
    rewrite Array_sort_Permutation. split; [|done].
    unfold events_of. apply list_elem_of_fmap. exists e.2.
    split; [|done]. rewrite Ht. by destruct e.
Qed.

(* Every recorded outage was recorded at some event. *)
Lemma replay_entries evs k o :
  (k, o) ∈ outageMap (replay tracking_init evs) →
  ∃ e, e ∈ evs ∧ o = outage_at e ∧ k = service e.2.
Proof.
  revert k o. induction evs as [|e evs IH] using rev_ind; intros k o.
  - simpl. by intros ?%elem_of_nil.
  - rewrite replay_snoc. unfold process_service.
    assert (∀ k o, (k, o) ∈ outageMap (replay tracking_init evs) →
              ∃ e0, e0 ∈ evs ++ [e] ∧ o = outage_at e0 ∧ k = service e0.2)
      as IH'.
    { intros k' o' (e0 & ? & ? & ?)%IH. exists e0.
      split; [|done]. apply elem_of_app. by left. }
    destruct (status e.2);
      match goal with |- context [if ?b then _ else _] => destruct b end;
      simpl; try apply IH'.
    + intros Hin%JsMap_elem_of_delete. by apply IH'.
    + intros [[= -> ->]|Hin]%JsMap_elem_of_set; [|by apply IH'].
      exists e. split; [|by destruct e]. apply elem_of_app. right. by left.
Qed.

(* ===================================================================== *)
(* Outage reconstruction                                                 *)
(* ===================================================================== *)


(** C3 (amended). Every outage returned by findCurrentOutages has
    duration equal to now minus its startTime; the duration is
    non-negative when no observation carries a timestamp after now. *)
Theorem findCurrentOutages_duration now statusChecks k o :
  (k, o) ∈ findCurrentOutages now statusChecks →
  duration o = now - startTime o ∧
  ((∀ c, c ∈ statusChecks → timestamp c ≤ now) → 0 ≤ duration o).
Proof.
  rewrite findCurrentOutages_replay.
  intros ([k' o'] & [= -> ->] & Hin)%list_elem_of_fmap. simpl.
  split; [done|]. intros Hpast.
  apply replay_entries in Hin as (e & He & -> & _). simpl.
  apply chronological_elem_of in He as (c & Hc & Ht & _).
  specialize (Hpast c Hc). lia.
Qed.


(* Reconstruction depends on the input order only through the relative
   order of observations that carry the same timestamp. *)
Lemma findCurrentOutages_tie_order now l1 l2 :
  (∀ t, observed_at t l1 = observed_at t l2) →
  findCurrentOutages now l1 = findCurrentOutages now l2.
Proof.
  intros Heq. unfold findCurrentOutages.
  by rewrite (Array_sort_by_timestamp_unique l1 l2 Heq).
Qed.

(** C5 (amended). For observations with pairwise distinct timestamps,
    findCurrentOutages returns the same mapping, entry for entry and in
    the same order, on every permutation of the input. *)
Theorem findCurrentOutages_permutation now l l' :
  NoDup (timestamp <$> l) → l ≡ₚ l' →
  findCurrentOutages now l' = findCurrentOutages now l.
Proof.
  intros Hnd Hp. symmetry. apply findCurrentOutages_tie_order.
  intros t. by apply observed_at_Permutation.
Qed.

(* --------------------------------------------------------------------- *)
(* The reconstruction on concrete observations                           *)
(* --------------------------------------------------------------------- *)

Example svcA_history_outages :
  findCurrentOutages (minutes 31) svcA_history =
  [("svcA", {| outage_service := "svcA";
               startTime := minutes 5;
               duration := minutes 26;
               outage_error := "timeout";
               isOngoing := true |})].
Proof. reflexivity. Qed.




(* C3 as stated fails: an observation stamped after the instant of the
   run yields an outage of negative duration. *)
Lemma findCurrentOutages_duration_negative :
  ∃ o, ("svcA", o) ∈ findCurrentOutages 50 from_the_future ∧
       duration o = -50 ∧ ¬ 0 ≤ duration o.
Proof.
  eexists. split; [left|]. simpl. split; [reflexivity|]. lia.
Qed.

Lemma findCurrentOutages_duration_witness :
  let o := {| outage_service := "svcA";
              startTime := minutes 5;
              duration := minutes 26;
              outage_error := "timeout";
              isOngoing := true |} in
  duration o = minutes 31 - startTime o ∧
  ((∀ c, c ∈ svcA_history → timestamp c ≤ minutes 31) → 0 ≤ duration o).
Proof.
  intros o.
  apply (findCurrentOutages_duration (minutes 31) svcA_history "svcA" o).
  rewrite svcA_history_outages. left.
Defined.

(* C5 as stated fails: two observations of the same instant that
   disagree on a service give different results in the two orders. *)
Lemma findCurrentOutages_permutation_tie :
  tie_error_first ≡ₚ tie_ok_first ∧
  findCurrentOutages 0 tie_error_first = [] ∧
  findCurrentOutages 0 tie_ok_first ≠ findCurrentOutages 0 tie_error_first.
Proof.
  split; [apply Permutation_swap|]. split; [reflexivity|].
  intros H. vm_compute in H. discriminate H.
Qed.

Lemma findCurrentOutages_permutation_witness :
  findCurrentOutages (minutes 31) svcA_history_shuffled =
  findCurrentOutages (minutes 31) svcA_history.
Proof.
  apply findCurrentOutages_permutation.
  - apply (bool_decide_unpack _). vm_compute. exact I.
  - symmetry. apply (Permutation_cons_append [_; _]).
Defined.

(* ===================================================================== *)
(* Alert decision                                                        *)
(* ===================================================================== *)

Lemma own_keys_elem_of (obj : gmap string Z) k :
  k ∈ own_keys obj ↔ is_Some (obj !! k).
Proof.
  unfold own_keys. rewrite list_elem_of_fmap. split.
  - intros ([k' v] & -> & Hin). apply elem_of_map_to_list in Hin. by eexists.
  - intros [v Hv]. exists (k, v). split; [done|]. by apply elem_of_map_to_list.
Qed.

Section Cleanup.
Context {V : Type} (currentOutages : JsMap.t V).

Lemma cleanup_loop_lookup names (obj : gmap string Z) k :
  foldl (forget_if_resolved currentOutages) obj names !! k =
  if decide (k ∈ names ∧ JsMap.has currentOutages k = false)
  then None else obj !! k.
Proof.
  revert obj. induction names as [|n names IH]; intros obj; simpl.
  - done.
  - rewrite IH. unfold forget_if_resolved at 1.
    destruct (decide (k ∈ names ∧ JsMap.has currentOutages k = false))
      as [[Hin Hhas]|Hno].
    + rewrite decide_True; [done|]. split; [by right|done].
    + destruct (JsMap.has currentOutages n) eqn:Hn.
      * case_decide as Hk; [|done].
        destruct Hk as [[->|Hin]%elem_of_cons Hhas]; [congruence|].
        exfalso. by apply Hno.
      * destruct (decide (n = k)) as [->|Hne].
        -- rewrite lookup_delete_eq, decide_True; [done|]. split; [by left|done].
        -- rewrite lookup_delete_ne by done.
           rewrite decide_False; [done|].
           intros [[->|Hin]%elem_of_cons Hhas]; [done|]. by apply Hno.
Qed.

Lemma remove_resolved_lookup (reportedOutages : gmap string Z) k :
  remove_resolved currentOutages reportedOutages !! k =
  if JsMap.has currentOutages k then reportedOutages !! k else None.
Proof.
  unfold remove_resolved. rewrite (cleanup_loop_lookup _ _ k).
  destruct (JsMap.has currentOutages k) eqn:Hhas.
  - rewrite decide_False; [done|]. by intros [_ ?].
  - case_decide as Hk; [done|].
    destruct (reportedOutages !! k) as [v|] eqn:Hv; [|done].
    exfalso. apply Hk. split; [|done]. apply own_keys_elem_of. by eexists.
Qed.
End Cleanup.

(** C6. The cleanup removes from the ledger exactly the keys that are
    not keys of the outage mapping, and every entry that remains keeps
    the timestamp it had. *)
Theorem remove_resolved_exact (currentOutages : JsMap.t Outage)
    (reportedOutages : gmap string Z) (serviceName : string) :
  let cleaned := remove_resolved currentOutages reportedOutages in
  (is_Some (cleaned !! serviceName) ↔
     is_Some (reportedOutages !! serviceName) ∧
     JsMap.has currentOutages serviceName = true) ∧
  (JsMap.has currentOutages serviceName = true →
     cleaned !! serviceName = reportedOutages !! serviceName) ∧
  (JsMap.has currentOutages serviceName = false →
     cleaned !! serviceName = None).
Proof.
  intros cleaned. unfold cleaned. rewrite remove_resolved_lookup.
  destruct (JsMap.has currentOutages serviceName).
  - split; [|done]. split; [done|by intros [? _]].
  - split; [|done]. split; [by intros ?%is_Some_None|by intros [_ ?]].
Qed.

Lemma remove_resolved_exact_witness :
  let currentOutages := findCurrentOutages (minutes 31) svcA_history in
  let reportedOutages : gmap string Z :=
    {[ "svcA" := 1700000000000; "svcOld" := 1600000000000 ]} in
  remove_resolved currentOutages reportedOutages !! "svcA"
    = Some 1700000000000 ∧
  remove_resolved currentOutages reportedOutages !! "svcOld" = None.
Proof.
  intros currentOutages reportedOutages. split.
  - apply (proj1 (proj2 (remove_resolved_exact currentOutages reportedOutages
                           "svcA"))).
    reflexivity.
  - apply (proj2 (proj2 (remove_resolved_exact currentOutages reportedOutages
                           "svcOld"))).
    reflexivity.
Defined.

Lemma truthy_property_false (obj : gmap string Z) name :
  ¬ truthy_property obj name ↔
  (obj !! name = None ∧ name ∉ Object_prototype_properties) ∨
  obj !! name = Some 0.
Proof.
  unfold truthy_property. destruct (obj !! name) as [v|].
  - destruct (Z.eqb_spec v 0) as [->|Hv]; simpl.
    + split; [by right|by intros _ []].
    + split; [by intros []|]. intros [[? _]|[= ?]]; done.
  - rewrite bool_decide_spec. split; [by left|]. by intros [[_ ?]|?].
Qed.

(** C2 (amended). The outages selected for an alert are exactly the
    outages of the mapping whose duration is at least the threshold and
    for which reading the service name in the cleaned ledger gives a
    falsy value: the name is neither a key of the ledger nor a property
    inherited from Object.prototype, or the ledger stores 0 for it. They
    are listed in the order of the outage mapping. A service for which
    the cleaned ledger stores a timestamp other than 0 is never
    selected. *)
Theorem newOutages_exact (reportedOutages : gmap string Z)
    (currentOutages : JsMap.t Outage) (o : Outage) :
  let cleaned := remove_resolved currentOutages reportedOutages in
  let toAlert := newOutages cleaned (longOutages currentOutages) in
  (o ∈ toAlert ↔
     o ∈ JsMap.values currentOutages ∧
     NOTIFICATION_THRESHOLD ≤ duration o ∧
     ((cleaned !! outage_service o = None ∧
       outage_service o ∉ Object_prototype_properties) ∨
      cleaned !! outage_service o = Some 0)) ∧
  toAlert `sublist_of` JsMap.values currentOutages ∧
  (∀ t, cleaned !! outage_service o = Some t → t ≠ 0 → o ∉ toAlert).
Proof.
  intros cleaned toAlert. unfold toAlert, newOutages, longOutages.
  split; [|split].
  - rewrite !list_elem_of_filter, truthy_property_false. tauto.
  - etransitivity; apply sublist_filter.
  - intros t Ht Hne [Hfalsy _]%list_elem_of_filter.
    apply truthy_property_false in Hfalsy as [[? _]|?]; congruence.
Qed.

Lemma newOutages_exact_witness :
  let currentOutages := findCurrentOutages (minutes 31) svcA_history in
  let reportedOutages : gmap string Z := {[ "svcA" := 1700000000000 ]} in
  let o := {| outage_service := "svcA";
              startTime := minutes 5;
              duration := minutes 26;
              outage_error := "timeout";
              isOngoing := true |} in
  o ∉ newOutages (remove_resolved currentOutages reportedOutages)
        (longOutages currentOutages).
Proof.
  intros currentOutages reportedOutages o.
  apply (proj2 (proj2 (newOutages_exact reportedOutages currentOutages o))
           1700000000000).
  - rewrite remove_resolved_lookup. reflexivity.
  - discriminate.
Defined.

(* C2 as stated fails twice on the same run: the services to alert come
   out in the order of the outage mapping, here svcB before svcA, and
   svcB is selected although it is a key of the cleaned ledger. *)
Lemma newOutages_unsorted_and_zero :
  let currentOutages := findCurrentOutages (minutes 30) two_failing in
  let cleaned := remove_resolved currentOutages {[ "svcB" := 0 ]} in
  let toAlert := newOutages cleaned (longOutages currentOutages) in
  outage_service <$> toAlert = ["svcB"; "svcA"] ∧
  ¬ names_ascending toAlert ∧
  is_Some (cleaned !! "svcB").
Proof.
  intros currentOutages cleaned toAlert.
  assert (toAlert = JsMap.values currentOutages) as -> by (by vm_compute).
  split; [reflexivity|]. split.
  - intros Hs. apply Sorted_inv in Hs as [_ Hhd].
    apply HdRel_inv in Hhd. vm_compute in Hhd. exact Hhd.
  - unfold cleaned. rewrite remove_resolved_lookup. by eexists.
Qed.

(** C9. A service whose entry in the cleaned ledger stores the number 0
    counts as not reported yet: its outage is selected for an alert as
    soon as it meets the threshold. *)
Theorem newOutages_zero_timestamp (reportedOutages : gmap string Z)
    (currentOutages : JsMap.t Outage) (o : Outage) :
  let cleaned := remove_resolved currentOutages reportedOutages in
  o ∈ JsMap.values currentOutages →
  NOTIFICATION_THRESHOLD ≤ duration o →
  cleaned !! outage_service o = Some 0 →
  o ∈ newOutages cleaned (longOutages currentOutages).
Proof.
  intros cleaned Hin Hlong Hzero. unfold newOutages, longOutages.
  rewrite !list_elem_of_filter. split; [|done].
  apply truthy_property_false. by right.
Qed.

Lemma newOutages_zero_timestamp_witness :
  let currentOutages := findCurrentOutages (minutes 30) two_failing in
  let o := {| outage_service := "svcB";
              startTime := 0;
              duration := minutes 30;
              outage_error := "timeout";
              isOngoing := true |} in
  o ∈ newOutages (remove_resolved currentOutages {[ "svcB" := 0 ]})
        (longOutages currentOutages).
Proof.
  intros currentOutages o.
  apply (newOutages_zero_timestamp {[ "svcB" := 0 ]} currentOutages o).
  - vm_compute. left.
  - vm_compute. discriminate.
  - rewrite remove_resolved_lookup. reflexivity.
Defined.

(* The scenarios of the specification: svcA failing for 26 minutes is
   selected with an empty ledger, is not selected again once the ledger
   holds it, and leaves the ledger when it has recovered. *)
Example svcA_first_alert :
  let currentOutages := findCurrentOutages (minutes 31) svcA_history in
  outage_service <$>
    newOutages (remove_resolved currentOutages ∅) (longOutages currentOutages)
  = ["svcA"].
Proof. reflexivity. Qed.

Example svcA_already_reported :
  let currentOutages := findCurrentOutages (minutes 31) svcA_history in
  let reportedOutages : gmap string Z := {[ "svcA" := 1700000000000 ]} in
  newOutages (remove_resolved currentOutages reportedOutages)
    (longOutages currentOutages) = [] ∧
  remove_resolved currentOutages reportedOutages = reportedOutages.
Proof. split; reflexivity. Qed.

Example svcA_recovered :
  let currentOutages :=
    findCurrentOutages (minutes 41)
      (svcA_history ++ [observation (minutes 40) [check_ok "svcA"]]) in
  currentOutages = [] ∧
  remove_resolved currentOutages {[ "svcA" := 1700000000000 ]} = ∅.
Proof. split; reflexivity. Qed.

(* ===================================================================== *)
(* The run                                                               *)
(* ===================================================================== *)

Section RunFacts.
Variable toLocaleString : Z → string.

(* The two ways of having nothing to alert. *)
Lemma newOutages_none_long (updatedReportedOutages : gmap string Z)
    (currentOutages : JsMap.t Outage) :
  (∀ o, o ∈ JsMap.values currentOutages →
        duration o < NOTIFICATION_THRESHOLD) →
  newOutages updatedReportedOutages (longOutages currentOutages) = [].
Proof.
  intros Hshort.
  assert (longOutages currentOutages = []) as ->; [|done].
  unfold longOutages. induction (JsMap.values currentOutages) as [|o l IH].
  - done.
  - rewrite filter_cons, decide_False.
    + apply IH. intros o' Ho'. apply Hshort. by right.
    + assert (o ∈ o :: l) as Ho by (by left).
      specialize (Hshort o Ho). lia.
Qed.

Lemma newOutages_all_reported (updatedReportedOutages : gmap string Z)
    (currentOutages : JsMap.t Outage) :
  (∀ o, o ∈ JsMap.values currentOutages →
        NOTIFICATION_THRESHOLD ≤ duration o →
        ∃ t, updatedReportedOutages !! outage_service o = Some t ∧ t ≠ 0) →
  newOutages updatedReportedOutages (longOutages currentOutages) = [].
Proof.
  intros Hrep. apply elem_of_nil_inv. intros o.
  unfold newOutages, longOutages. rewrite !list_elem_of_filter.
  intros (Hfalsy & Hlong & Hin).
  destruct (Hrep o Hin Hlong) as (t & Ht & Hne).
  apply truthy_property_false in Hfalsy as [[? _]|?]; congruence.
Qed.

(** C10. When no outage is selected for an alert, the run posts nothing,
    writes the cleaned ledger and returns normally. *)
Theorem sendSlackNotification_nothing_to_alert w statusChecks :
  status_file w = Some statusChecks →
  let currentOutages := findCurrentOutages (now w) statusChecks in
  let cleaned := remove_resolved currentOutages (loadReportedOutages w) in
  newOutages cleaned (longOutages currentOutages) = [] →
  sendSlackNotification toLocaleString w
    = ([WriteReportedOutages cleaned], Returned) ∧
  (∀ url, SLACK_WEBHOOK_URL w = Some url → url ≠ "" →
     script toLocaleString w = ([WriteReportedOutages cleaned], Returned)).
Proof.
  intros Hfile currentOutages cleaned Hnone.
  assert (sendSlackNotification toLocaleString w
            = ([WriteReportedOutages cleaned], Returned)) as Hrun.
  { unfold sendSlackNotification. rewrite Hfile.
    fold currentOutages. fold cleaned.
    case_bool_decide as Hlong; [done|].
    rewrite Hnone. by rewrite bool_decide_eq_true_2. }
  split; [done|].
  intros url Hurl Hne. unfold script. rewrite Hurl.
  by rewrite decide_False.
Qed.

(** C7 (amended). When some outage is selected and the delivery fails, no
    selected service is stamped: a ledger written by the run can only be
    the cleaned one, in which every selected service still reads as not
    reported. If the post is rejected (network failure, timeout, or an
    HTTP error raised by the client) the run exits with status 1; if the
    post resolves with a status outside 200..299 the run writes the
    cleaned ledger and returns normally. *)
Theorem sendSlackNotification_delivery_failure w statusChecks url :
  status_file w = Some statusChecks →
  SLACK_WEBHOOK_URL w = Some url → url ≠ "" →
  let currentOutages := findCurrentOutages (now w) statusChecks in
  let cleaned := remove_resolved currentOutages (loadReportedOutages w) in
  let toAlert := newOutages cleaned (longOutages currentOutages) in
  let run := sendSlackNotification toLocaleString w in
  toAlert ≠ [] →
  delivery_failed (delivery w) →
  (∀ written, WriteReportedOutages written ∈ run.1 → written = cleaned) ∧
  (∀ o, o ∈ toAlert → ¬ truthy_property cleaned (outage_service o)) ∧
  (delivery w = Rejected → run.2 = ProcessExit 1) ∧
  (∀ status, delivery w = Responded status →
     run = ([Post url (message_blocks toLocaleString toAlert);
             WriteReportedOutages cleaned], Returned)).
Proof.
  intros Hfile Hurl Hne currentOutages cleaned toAlert run Hsome Hfailed.
  assert (longOutages currentOutages ≠ []) as Hlong.
  { intros Hnil. apply Hsome. unfold toAlert. by rewrite Hnil. }
  assert (run =
          match delivery w with
          | Rejected =>
              ([Post url (message_blocks toLocaleString toAlert)],
               ProcessExit 1)
          | Responded _ =>
              ([Post url (message_blocks toLocaleString toAlert);
                WriteReportedOutages cleaned], Returned)
          end) as Hrun.
  { unfold run, sendSlackNotification. rewrite Hfile, Hurl.
    fold currentOutages. fold cleaned. fold toAlert.
    rewrite !bool_decide_eq_false_2 by done.
    rewrite decide_False by done.
    destruct (delivery w) as [status|]; [|done].
    simpl in Hfailed.
    destruct (Z.leb_spec 200 status), (Z.ltb_spec status 300); simpl;
      try done; lia. }
  split; [|split; [|split]].
  - intros written. rewrite Hrun.
    destruct (delivery w); simpl.
    + intros [[=]|Hin%list_elem_of_singleton]%elem_of_cons. congruence.
    + intros [=]%list_elem_of_singleton.
  - intros o Ho. unfold toAlert, newOutages in Ho.
    by apply list_elem_of_filter in Ho as [? _].
  - intros Hd. by rewrite Hrun, Hd.
  - intros status Hd. by rewrite Hrun, Hd.
Qed.
End RunFacts.

(* C7 as stated fails: with a rejected post nothing is written, so the
   resolved service svcOld stays in the ledger file; with a post that
   resolves to status 500 the cleaned ledger is written but the run
   returns normally. *)
Lemma sendSlackNotification_failure_runs :
  let toAlert := JsMap.values (findCurrentOutages (minutes 30) two_failing) in
  let blocks := message_blocks Number_toString toAlert in
  sendSlackNotification Number_toString (failing_world Rejected)
    = ([Post "https://hooks.example/T000" blocks], ProcessExit 1) ∧
  sendSlackNotification Number_toString (failing_world (Responded 500))
    = ([Post "https://hooks.example/T000" blocks; WriteReportedOutages ∅],
       Returned).
Proof. split; vm_compute; reflexivity. Qed.

Lemma sendSlackNotification_delivery_failure_witness :
  (sendSlackNotification Number_toString (failing_world Rejected)).2
    = ProcessExit 1.
Proof.
  apply (sendSlackNotification_delivery_failure Number_toString
           (failing_world Rejected) two_failing "https://hooks.example/T000").
  - reflexivity.
  - reflexivity.
  - discriminate.
  - vm_compute. discriminate.
  - exact I.
  - reflexivity.
Defined.

Lemma sendSlackNotification_nothing_to_alert_witness :
  sendSlackNotification Number_toString quiet_world
    = ([WriteReportedOutages {[ "svcA" := 1700000000000 ]}], Returned).
Proof.
  apply (sendSlackNotification_nothing_to_alert Number_toString
           quiet_world svcA_history).
  - reflexivity.
  - vm_compute. reflexivity.
Defined.

(* ===================================================================== *)
(* Formatting of durations                                               *)
(* ===================================================================== *)

Lemma Math_round_minutes_nearest milliseconds :
  nearest_minute milliseconds (Math_round_minutes milliseconds).
Proof.
  unfold nearest_minute, Math_round_minutes.
  pose proof (Z.div_mod (milliseconds + 30000) 60000).
  pose proof (Z.mod_pos_bound (milliseconds + 30000) 60000).
  lia.
Qed.

Lemma padStart_two_digits n :
  0 ≤ n < 60 → padStart 2 "0" (Number_toString n) = two_digits n.
Proof.
  intros Hn.
  assert (∃ k : nat, n = Z.of_nat k ∧ (k < 60)%nat) as (k & -> & Hk).
  { exists (Z.to_nat n). lia. }
  clear Hn.
  do 60 (destruct k as [|k]; [vm_compute; reflexivity|]).
  lia.
Qed.

(** C8. For a non-negative number of milliseconds, formatDuration takes
    the nearest whole number m of minutes and returns the numeral of m
    followed by min when m is below 60, and otherwise the numeral of the
    hours, hr, a space, the remaining minutes on two digits and min;
    125000 ms gives 2min and 3660000 ms gives 1hr 01min. *)
Theorem formatDuration_spec :
  (∀ milliseconds, 0 ≤ milliseconds →
     ∃ m, nearest_minute milliseconds m ∧
          (m < 60 → formatDuration milliseconds = Number_toString m +:+ "min") ∧
          (60 ≤ m →
             formatDuration milliseconds =
             Number_toString (m / 60) +:+ "hr " +:+
               two_digits (m mod 60) +:+ "min")) ∧
  formatDuration 125000 = "2min" ∧
  formatDuration 3660000 = "1hr 01min".
Proof.
  split; [|split; reflexivity].
  intros milliseconds Hpos. exists (Math_round_minutes milliseconds).
  split; [apply Math_round_minutes_nearest|].
  unfold formatDuration.
  destruct (Z.leb_spec 60 (Math_round_minutes milliseconds)) as [Hge|Hlt].
  - split; [lia|]. intros _.
    rewrite Z.rem_mod_nonneg by lia.
    rewrite padStart_two_digits; [done|].
    apply Z.mod_pos_bound. lia.
  - split; [done|lia].
Qed.

Lemma formatDuration_spec_witness :
  ∃ m, nearest_minute 125000 m ∧
       (m < 60 → formatDuration 125000 = Number_toString m +:+ "min") ∧
       (60 ≤ m →
          formatDuration 125000 =
          Number_toString (m / 60) +:+ "hr " +:+
            two_digits (m mod 60) +:+ "min").
Proof.
  apply (proj1 formatDuration_spec 125000). lia.
Defined.

(* ===================================================================== *)
(* Further properties of the reconstruction                              *)
(* ===================================================================== *)

Lemma error_or_unknown_nonempty e : error_or_unknown e ≠ "".
Proof.
  unfold error_or_unknown. destruct e as [text|]; [|done].
  by case_decide.
Qed.

Section JsMapKeys.
Context {V : Type}.
Implicit Types (m : JsMap.t V) (k : string) (v : V).

Lemma JsMap_get_None m k : JsMap.get m k = None ↔ k ∉ m.*1.
Proof.
  induction m as [|[k' v'] m IH]; simpl.
  - split; [intros _ []%elem_of_nil|done].
  - rewrite not_elem_of_cons. destruct (decide (k' = k)) as [->|Hne].
    + split; [done|by intros [? _]].
    + rewrite IH. split; [by intros ?; split|by intros [_ ?]].
Qed.

Lemma JsMap_get_Some_elem_of m k v : JsMap.get m k = Some v → (k, v) ∈ m.
Proof.
  induction m as [|[k' v'] m IH]; simpl; [done|].
  destruct (decide (k' = k)) as [->|Hne].
  - intros [= ->]. by left.
  - intros ?. right. by apply IH.
Qed.

Lemma JsMap_elem_of_get m k v : NoDup m.*1 → (k, v) ∈ m → JsMap.get m k = Some v.
Proof.
  induction m as [|[k' v'] m IH]; simpl.
  - by intros _ ?%elem_of_nil.
  - intros [Hk' Hnd]%NoDup_cons [[= -> ->]|Hin]%elem_of_cons.
    + by rewrite decide_True.
    + rewrite decide_False; [by apply IH|].
      intros ->. apply Hk'. apply list_elem_of_fmap. by exists (k, v).
Qed.

Lemma JsMap_set_fresh m k v :
  JsMap.get m k = None → JsMap.set m k v = m ++ [(k, v)].
Proof.
  induction m as [|[k' v'] m IH]; simpl; [done|].
  destruct (decide (k' = k)); [done|]. intros ?. by rewrite IH.
Qed.

Lemma JsMap_delete_absent m k : JsMap.get m k = None → JsMap.delete m k = m.
Proof.
  induction m as [|[k' v'] m IH]; simpl; [done|].
  destruct (decide (k' = k)); [done|]. intros ?. by rewrite IH.
Qed.

Lemma JsMap_delete_sublist m k : JsMap.delete m k `sublist_of` m.
Proof.
  induction m as [|[k' v'] m IH]; simpl; [done|].
  destruct (decide (k' = k)); [by apply sublist_cons|by apply sublist_skip].
Qed.

Lemma JsMap_set_keys_NoDup m k v : NoDup m.*1 → NoDup (JsMap.set m k v).*1.
Proof.
  induction m as [|[k' v'] m IH]; simpl.
  - intros _. apply NoDup_singleton.
  - intros [Hk' Hnd]%NoDup_cons.
    destruct (decide (k' = k)) as [->|Hne]; simpl.
    + by apply NoDup_cons.
    + apply NoDup_cons. split; [|by apply IH].
      intros ([k0 v0] & Hk0 & Hin)%list_elem_of_fmap. simpl in Hk0. subst k0.
      apply JsMap_elem_of_set in Hin as [[= -> ->]|Hin]; [done|].
      apply Hk'. apply list_elem_of_fmap. by exists (k', v0).
Qed.

Lemma JsMap_delete_keys_NoDup m k : NoDup m.*1 → NoDup (JsMap.delete m k).*1.
Proof.
  intros Hnd. eapply sublist_NoDup; [exact Hnd|].
  apply fmap_sublist, JsMap_delete_sublist.
Qed.

Lemma JsMap_delete_fmap {W} (f : V → W) m k :
  JsMap.delete (prod_map id f <$> m) k = prod_map id f <$> JsMap.delete m k.
Proof.
  induction m as [|[k' v'] m IH]; simpl; [done|].
  destruct (decide (k' = k)); simpl; [exact IH|f_equal; exact IH].
Qed.

Lemma JsMap_has_fmap {W} (f : V → W) m k :
  JsMap.has (prod_map id f <$> m) k = JsMap.has m k.
Proof.
  unfold JsMap.has. rewrite JsMap_get_fmap. by destruct (JsMap.get m k).
Qed.

Lemma JsMap_keys_fmap {W} (f : V → W) m : (prod_map id f <$> m).*1 = m.*1.
Proof.
  induction m as [|[k' v'] m IH]; simpl; [done|]. f_equal. exact IH.
Qed.
End JsMapKeys.

Lemma StronglySorted_sublist {A} (R : relation A) (l1 l2 : list A) :
  l1 `sublist_of` l2 → StronglySorted R l2 → StronglySorted R l1.
Proof.
  induction 1 as [|x l1 l2 Hsub IH|x l1 l2 Hsub IH]; [done| |].
  - intros [Hall Hs]%StronglySorted_cons. apply StronglySorted_cons.
    split; [|by apply IH].
    rewrite Forall_forall in *. intros y Hy. apply Hall.
    by eapply elem_of_sublist.
  - intros [_ Hs]%StronglySorted_cons. by apply IH.
Qed.

(* Every recorded outage was recorded at an error event. *)
Lemma replay_entries_error evs k o :
  (k, o) ∈ outageMap (replay tracking_init evs) →
  ∃ e, e ∈ evs ∧ is_error e ∧ o = outage_at e ∧ k = service e.2.
Proof.
  revert k o. induction evs as [|e evs IH] using rev_ind; intros k o.
  - simpl. by intros ?%elem_of_nil.
  - rewrite replay_snoc. unfold process_service.
    assert (∀ k o, (k, o) ∈ outageMap (replay tracking_init evs) →
              ∃ e0, e0 ∈ evs ++ [e] ∧ is_error e0 ∧
                    o = outage_at e0 ∧ k = service e0.2) as IH'.
    { intros k' o' (e0 & ? & ? & ? & ?)%IH. exists e0.
      split; [|done]. apply elem_of_app. by left. }
    destruct (status e.2) eqn:Hst;
      match goal with |- context [if ?b then _ else _] => destruct b end;
      simpl; try apply IH'.
    + intros Hin%JsMap_elem_of_delete. by apply IH'.
    + intros [[= -> ->]|Hin]%JsMap_elem_of_set; [|by apply IH'].
      exists e. split; [apply elem_of_app; right; by left|].
      split; [done|by destruct e].
Qed.

Lemma replay_keys_NoDup evs : NoDup (outageMap (replay tracking_init evs)).*1.
Proof.
  induction evs as [|e evs IH] using rev_ind; [apply NoDup_nil_2|].
  rewrite replay_snoc. unfold process_service.
  destruct (status e.2);
    match goal with |- context [if ?b then _ else _] => destruct b end;
    simpl; try done.
  - by apply JsMap_delete_keys_NoDup.
  - by apply JsMap_set_keys_NoDup.
Qed.

Lemma findCurrentOutages_keys_NoDup now statusChecks :
  NoDup (findCurrentOutages now statusChecks).*1.
Proof.
  rewrite findCurrentOutages_replay, JsMap_keys_fmap. apply replay_keys_NoDup.
Qed.

Lemma findCurrentOutages_elem_of now statusChecks k o :
  (k, o) ∈ findCurrentOutages now statusChecks →
  ∃ e, e ∈ chronological statusChecks ∧ is_error e ∧
       o = set_duration now (outage_at e) ∧ k = service e.2.
Proof.
  rewrite findCurrentOutages_replay.
  intros ([k' o'] & [= -> ->] & Hin)%list_elem_of_fmap.
  apply replay_entries_error in Hin as (e & ? & ? & -> & ->). by exists e.
Qed.

(** X1. The mapping returned by findCurrentOutages is a well-formed map
    of ongoing outages: its keys are pairwise distinct, every entry is
    filed under the service it describes, is marked ongoing and carries
    a non-empty error text. *)
Theorem findCurrentOutages_well_formed now statusChecks :
  NoDup (findCurrentOutages now statusChecks).*1 ∧
  ∀ k o, (k, o) ∈ findCurrentOutages now statusChecks →
         outage_service o = k ∧ isOngoing o = true ∧ outage_error o ≠ "".
Proof.
  split; [apply findCurrentOutages_keys_NoDup|].
  intros k o (e & _ & _ & -> & ->)%findCurrentOutages_elem_of. simpl.
  split; [done|]. split; [done|]. apply error_or_unknown_nonempty.
Qed.

(** X2. Every outage returned by findCurrentOutages is backed by an error
    observation of the input: some observation reports an error for that
    service, its timestamp is the outage's startTime and its error text,
    normalised, is the outage's error. *)
Theorem findCurrentOutages_backed_by_error now statusChecks k o :
  (k, o) ∈ findCurrentOutages now statusChecks →
  ∃ check sc,
    check ∈ statusChecks ∧ sc ∈ checks check ∧
    service sc = k ∧ status sc = StatusError ∧
    startTime o = timestamp check ∧
    outage_error o = error_or_unknown (error sc).
Proof.
  intros (e & He & Herr & -> & ->)%findCurrentOutages_elem_of.
  apply chronological_elem_of in He as (c & Hc & Ht & Hsc).
  exists c, e.2. simpl. by repeat split.
Qed.

(* The outage map after one more event, without the serviceStatus map:
   an ok event deletes the outage of its service, an error event opens
   one at the end of the map unless the service has one. *)
Lemma replay_outageMap_snoc evs e :
  outageMap (replay tracking_init (evs ++ [e])) =
  advance e.1 e.1 (outageMap (replay tracking_init evs)) e.2.
Proof.
  rewrite replay_snoc.
  destruct (replay_tracks evs (service e.2)) as [Hfail Hget].
  unfold process_service, advance.
  generalize dependent (trailing_errors (service_events (service e.2) evs)).
  intros run Hfail Hget.
  destruct (status e.2).
  - change (match serviceStatus (replay tracking_init evs) !! service e.2 with
            | Some st => bool_decide (state_status st = StatusError)
            | None => false
            end)
      with (is_failing (serviceStatus (replay tracking_init evs)) (service e.2)).
    rewrite Hfail. case_bool_decide as Hrun; simpl; [done|].
    rewrite JsMap_delete_absent; [done|].
    rewrite Hget. destruct run; [done|].
    first [discriminate Hrun | by exfalso; apply Hrun].
  - assert ((match serviceStatus (replay tracking_init evs) !! service e.2 with
             | Some st => bool_decide (state_status st = StatusOk)
             | None => true
             end)
            = negb (is_failing (serviceStatus (replay tracking_init evs))
                      (service e.2))) as ->.
    { unfold is_failing.
      destruct (serviceStatus (replay tracking_init evs) !! service e.2)
        as [st|]; [|done].
      by destruct (state_status st). }
    rewrite Hfail. unfold JsMap.has. rewrite Hget.
    case_bool_decide as Hrun; simpl.
    + destruct run; [done|]. done.
    + assert (run = []) as ->.
      { destruct run; [done|].
        first [discriminate Hrun | by exfalso; apply Hrun]. }
      simpl. rewrite JsMap_set_fresh by (by rewrite Hget).
      by rewrite Z.sub_diag.
Qed.

Lemma replay_outageMap_app evs t cs :
  outageMap (replay tracking_init (evs ++ ((λ sc, (t, sc)) <$> cs))) =
  foldl (advance t t) (outageMap (replay tracking_init evs)) cs.
Proof.
  revert evs. induction cs as [|sc cs IH]; intros evs; simpl.
  - by rewrite app_nil_r.
  - rewrite (cons_middle (t, sc)), app_assoc, IH.
    by rewrite replay_outageMap_snoc.
Qed.

Lemma advance_set_duration now t m sc :
  prod_map id (set_duration now) <$> advance t t m sc =
  advance now t (prod_map id (set_duration now) <$> m) sc.
Proof.
  unfold advance. destruct (status sc).
  - by rewrite JsMap_delete_fmap.
  - rewrite JsMap_has_fmap. destruct (JsMap.has m (service sc)); [done|].
    rewrite fmap_app. simpl. unfold set_duration at 2. simpl. done.
Qed.

Lemma foldl_advance_set_duration now t m cs :
  prod_map id (set_duration now) <$> foldl (advance t t) m cs =
  foldl (advance now t) (prod_map id (set_duration now) <$> m) cs.
Proof.
  revert m. induction cs as [|sc cs IH]; intros m; simpl; [done|].
  by rewrite IH, advance_set_duration.
Qed.

Lemma Array_sort_snoc_latest l check :
  (∀ c, c ∈ l → timestamp c ≤ timestamp check) →
  Array_sort by_timestamp (l ++ [check]) = Array_sort by_timestamp l ++ [check].
Proof.
  intros Hlatest. apply Array_sort_by_timestamp_stable_sort.
  - apply StronglySorted_app_2.
    + intros c1 c2 Hc1 ->%list_elem_of_singleton.
      rewrite Array_sort_Permutation in Hc1. by apply Hlatest.
    + apply Array_sort_ordered.
    + repeat constructor.
  - intros t. unfold observed_at. rewrite !filter_app.
    f_equal. apply Array_sort_observed_at.
Qed.

(** X3. Observations can be processed one at a time: for an observation
    that is not earlier than any observation of the input, the outages of
    the extended input are obtained from the outages of the input by
    taking the checks of the new observation in order, an ok check
    removing the outage of its service and an error check opening a new
    outage, listed last, unless the service has one already. *)
Theorem findCurrentOutages_snoc now statusChecks check :
  (∀ c, c ∈ statusChecks → timestamp c ≤ timestamp check) →
  findCurrentOutages now (statusChecks ++ [check]) =
  foldl (advance now (timestamp check))
    (findCurrentOutages now statusChecks) (checks check).
Proof.
  intros Hlatest. rewrite !findCurrentOutages_replay.
  unfold chronological. rewrite Array_sort_snoc_latest by done.
  rewrite bind_app. simpl. rewrite app_nil_r. unfold events_of at 2.
  rewrite replay_outageMap_app. apply foldl_advance_set_duration.
Qed.

Lemma chronological_times_sorted statusChecks :
  StronglySorted (λ a b : Event, a.1 ≤ b.1) (chronological statusChecks).
Proof.
  unfold chronological.
  pose proof (Array_sort_ordered statusChecks) as Hsorted.
  induction Hsorted as [|c l Hl IH Hc]; [constructor|].
  rewrite bind_cons. apply StronglySorted_app_2; [| |done].
  - intros e1 e2 (sc1 & -> & _)%list_elem_of_fmap
      (c2 & (sc2 & -> & _)%list_elem_of_fmap & Hc2)%list_elem_of_bind.
    simpl. rewrite Forall_forall in Hc. by apply Hc.
  - unfold events_of. induction (checks c) as [|sc cs IHcs]; [constructor|].
    simpl. constructor; [done|]. apply Forall_forall.
    intros e (sc' & -> & _)%list_elem_of_fmap. done.
Qed.

Lemma replay_startTime_sorted evs :
  StronglySorted (λ a b : Event, a.1 ≤ b.1) evs →
  StronglySorted (λ a b, startTime a ≤ startTime b)
    (outageMap (replay tracking_init evs)).*2.
Proof.
  induction evs as [|e evs IH] using rev_ind; [constructor|].
  intros (Hle & Hevs & _)%StronglySorted_app. specialize (IH Hevs).
  rewrite replay_outageMap_snoc. unfold advance.
  destruct (status e.2).
  - eapply StronglySorted_sublist; [|exact IH].
    apply fmap_sublist, JsMap_delete_sublist.
  - destruct (JsMap.has _ _); [done|].
    rewrite fmap_app. apply StronglySorted_app_2; [|done|repeat constructor].
    intros o1 o2 ([k o] & -> & Hin)%list_elem_of_fmap ->%list_elem_of_singleton.
    simpl. apply replay_entries in Hin as (e0 & He0 & -> & _). simpl.
    apply Hle; [done|by left].
Qed.

(** X4. The outages returned by findCurrentOutages are listed by
    ascending startTime: an outage that began earlier comes first. *)
Theorem findCurrentOutages_by_startTime now statusChecks :
  StronglySorted (λ a b, startTime a ≤ startTime b)
    (JsMap.values (findCurrentOutages now statusChecks)).
Proof.
  rewrite findCurrentOutages_replay. unfold JsMap.values.
  pose proof (replay_startTime_sorted _
                (chronological_times_sorted statusChecks)) as Hsorted.
  induction (outageMap (replay tracking_init (chronological statusChecks)))
    as [|[k o] m IH]; [constructor|].
  simpl in *. apply StronglySorted_cons in Hsorted as [Hall Hsorted].
  apply StronglySorted_cons. split; [|by apply IH].
  rewrite Forall_forall in *.
  intros o' ([k1 o1] & -> & ([k2 o2] & [= -> ->] & Hin)%list_elem_of_fmap)
    %list_elem_of_fmap.
  simpl. apply Hall. apply list_elem_of_fmap. by exists (k2, o2).
Qed.

Lemma findCurrentOutages_well_formed_witness :
  let o := {| outage_service := "svcA";
              startTime := minutes 5;
              duration := minutes 26;
              outage_error := "timeout";
              isOngoing := true |} in
  outage_service o = "svcA" ∧ isOngoing o = true ∧ outage_error o ≠ "".
Proof.
  intros o.
  apply (proj2 (findCurrentOutages_well_formed (minutes 31) svcA_history)
           "svcA" o).
  rewrite svcA_history_outages. left.
Defined.

Lemma findCurrentOutages_backed_by_error_witness :
  let o := {| outage_service := "svcA";
              startTime := minutes 5;
              duration := minutes 26;
              outage_error := "timeout";
              isOngoing := true |} in
  ∃ check sc,
    check ∈ svcA_history ∧ sc ∈ checks check ∧
    service sc = "svcA" ∧ status sc = StatusError ∧
    startTime o = timestamp check ∧
    outage_error o = error_or_unknown (error sc).
Proof.
  intros o.
  apply (findCurrentOutages_backed_by_error (minutes 31) svcA_history "svcA" o).
  rewrite svcA_history_outages. left.
Defined.

Lemma findCurrentOutages_snoc_witness :
  findCurrentOutages (minutes 41) (svcA_history ++ [svcA_recovery]) =
  foldl (advance (minutes 41) (timestamp svcA_recovery))
    (findCurrentOutages (minutes 41) svcA_history) (checks svcA_recovery).
Proof.
  apply findCurrentOutages_snoc.
  intros c Hc. unfold svcA_history in Hc.
  repeat (apply elem_of_cons in Hc as [->|Hc]); try (vm_compute; discriminate).
  by apply elem_of_nil in Hc.
Defined.

(** X5. The result of findCurrentOutages depends on the order of its
    input only through the relative order of the observations that carry
    the same timestamp: two inputs with the same observations at every
    instant, in the same order, give the same mapping. *)
Theorem findCurrentOutages_same_instant_order now l1 l2 :
  (∀ t, observed_at t l1 = observed_at t l2) →
  findCurrentOutages now l1 = findCurrentOutages now l2.
Proof.
  intros Hsame. unfold findCurrentOutages.
  by rewrite (Array_sort_by_timestamp_unique l1 l2 Hsame).
Qed.

Lemma findCurrentOutages_same_instant_order_witness :
  findCurrentOutages 10 tie_around_later = findCurrentOutages 10 tie_then_later.
Proof.
  apply findCurrentOutages_same_instant_order.
  intros t. unfold observed_at, tie_around_later, tie_then_later,
    tie_error_first, observation.
  simpl. rewrite !filter_cons, !filter_nil. simpl.
  destruct (decide (0 = t)), (decide (5 = t)); try reflexivity.
  exfalso. lia.
Defined.

Lemma sort_insert_fmap (g : StatusCheck → StatusCheck) x l :
  (∀ c, timestamp (g c) = timestamp c) →
  sort_insert by_timestamp (g x) (g <$> l) = g <$> sort_insert by_timestamp x l.
Proof.
  intros Hg. induction l as [|y l IH]; simpl; [done|].
  unfold by_timestamp at 1 3. rewrite !Hg.
  destruct (timestamp x - timestamp y <=? 0); simpl; [done|].
  f_equal. exact IH.
Qed.

Lemma Array_sort_fmap (g : StatusCheck → StatusCheck) l :
  (∀ c, timestamp (g c) = timestamp c) →
  Array_sort by_timestamp (g <$> l) = g <$> Array_sort by_timestamp l.
Proof.
  intros Hg. induction l as [|x l IH]; [done|].
  rewrite fmap_cons. cbn [Array_sort]. rewrite IH. by apply sort_insert_fmap.
Qed.

Lemma service_events_restrict s check :
  service_events s (events_of (restrict_to_service s check)) =
  service_events s (events_of check).
Proof.
  unfold service_events, events_of, restrict_to_service. simpl.
  induction (checks check) as [|sc cs IH]; simpl; [done|].
  rewrite (filter_cons _ sc cs).
  destruct (decide (service sc = s)) as [Hs|Hs]; simpl.
  - rewrite !filter_cons. simpl. rewrite !decide_True by done.
    f_equal. exact IH.
  - rewrite filter_cons. simpl. rewrite decide_False by done. exact IH.
Qed.

Lemma service_events_bind s (l : list StatusCheck) (f : StatusCheck → list Event) :
  service_events s (l ≫= f) = l ≫= (λ c, service_events s (f c)).
Proof.
  unfold service_events. induction l as [|c l IH]; [done|].
  rewrite !bind_cons, filter_app. f_equal. exact IH.
Qed.

Lemma chronological_restrict s statusChecks :
  service_events s (chronological (restrict_to_service s <$> statusChecks))
  = service_events s (chronological statusChecks).
Proof.
  unfold chronological. rewrite Array_sort_fmap by done.
  rewrite !service_events_bind.
  induction (Array_sort by_timestamp statusChecks) as [|c l IH]; [done|].
  rewrite fmap_cons, !bind_cons.
  f_equal; [apply service_events_restrict|exact IH].
Qed.

(** X6. The outage of a service depends on the checks of that service
    only: dropping the checks of all other services from every
    observation leaves the entry of the service unchanged. *)
Theorem findCurrentOutages_other_services now statusChecks s :
  JsMap.get (findCurrentOutages now (restrict_to_service s <$> statusChecks)) s
  = JsMap.get (findCurrentOutages now statusChecks) s.
Proof. by rewrite !findCurrentOutages_get, chronological_restrict. Qed.

Lemma findCurrentOutages_services now statusChecks :
  outage_service <$> JsMap.values (findCurrentOutages now statusChecks)
  = (findCurrentOutages now statusChecks).*1.
Proof.
  unfold JsMap.values. rewrite <- list_fmap_compose.
  apply list_fmap_ext. intros i [k o] Hi. simpl.
  assert ((k, o) ∈ findCurrentOutages now statusChecks) as Hin.
  { apply list_elem_of_lookup. by exists i. }
  by apply findCurrentOutages_elem_of in Hin as (e & _ & _ & -> & ->).
Qed.

Lemma toAlert_of_services_NoDup now statusChecks
    (reportedOutages : gmap string Z) :
  NoDup (outage_service <$> toAlert_of now statusChecks reportedOutages).
Proof.
  unfold toAlert_of, newOutages, longOutages.
  eapply sublist_NoDup;
    [|apply fmap_sublist; etransitivity; apply sublist_filter].
  rewrite findCurrentOutages_services. apply findCurrentOutages_keys_NoDup.
Qed.

(** X7. The outages selected for one alert name pairwise distinct
    services: a message never lists a service twice. *)
Theorem toAlert_services_distinct now statusChecks
    (reportedOutages : gmap string Z) :
  NoDup (outage_service <$> toAlert_of now statusChecks reportedOutages).
Proof. apply toAlert_of_services_NoDup. Qed.

(* ===================================================================== *)
(* Further properties of the decision and of the run                     *)
(* ===================================================================== *)

Lemma findCurrentOutages_has_service now statusChecks o :
  o ∈ JsMap.values (findCurrentOutages now statusChecks) →
  JsMap.has (findCurrentOutages now statusChecks) (outage_service o) = true.
Proof.
  unfold JsMap.values. intros ([k o'] & -> & Hin)%list_elem_of_fmap. simpl.
  apply JsMap_has_get. exists o'.
  pose proof Hin as (e & _ & _ & -> & ->)%findCurrentOutages_elem_of.
  simpl. apply JsMap_elem_of_get; [apply findCurrentOutages_keys_NoDup|done].
Qed.

(** X8. Without a ledger file (absent or unreadable) the cleaned ledger
    is empty and every outage that meets the threshold is selected for
    an alert, except for a service whose name is a property inherited
    from Object.prototype. *)
Theorem toAlert_without_ledger (w : World) (currentOutages : JsMap.t Outage) :
  reported_file w = None →
  remove_resolved currentOutages (loadReportedOutages w) = ∅ ∧
  newOutages (remove_resolved currentOutages (loadReportedOutages w))
    (longOutages currentOutages)
  = filter (λ o, outage_service o ∉ Object_prototype_properties)
      (longOutages currentOutages).
Proof.
  intros Hfile. unfold loadReportedOutages. rewrite Hfile.
  assert (remove_resolved currentOutages (∅ : gmap string Z) = ∅) as ->.
  { apply map_eq. intros k. rewrite remove_resolved_lookup, lookup_empty.
    by destruct (JsMap.has currentOutages k). }
  split; [done|]. unfold newOutages. apply list_filter_iff. intros o.
  rewrite truthy_property_false, lookup_empty. split.
  - by intros [[_ ?]|?].
  - intros ?. by left.
Qed.

Lemma toAlert_without_ledger_witness :
  let currentOutages := findCurrentOutages (minutes 30) two_failing in
  remove_resolved currentOutages (loadReportedOutages first_world) = ∅ ∧
  newOutages (remove_resolved currentOutages (loadReportedOutages first_world))
    (longOutages currentOutages)
  = filter (λ o, outage_service o ∉ Object_prototype_properties)
      (longOutages currentOutages).
Proof.
  intros currentOutages. apply toAlert_without_ledger. reflexivity.
Defined.

(** X9. The cleanup only removes entries and is idempotent: the cleaned
    ledger is included in the ledger read, and cleaning it again against
    the same outages changes nothing. *)
Theorem remove_resolved_idempotent (currentOutages : JsMap.t Outage)
    (reportedOutages : gmap string Z) :
  remove_resolved currentOutages reportedOutages ⊆ reportedOutages ∧
  remove_resolved currentOutages
    (remove_resolved currentOutages reportedOutages)
  = remove_resolved currentOutages reportedOutages.
Proof.
  split.
  - apply map_subseteq_spec. intros k v.
    rewrite remove_resolved_lookup.
    by destruct (JsMap.has currentOutages k).
  - apply map_eq. intros k. rewrite !remove_resolved_lookup.
    by destruct (JsMap.has currentOutages k).
Qed.



Lemma stamp_reported_lookup_other clock i outages (m : gmap string Z) k :
  k ∉ outage_service <$> outages →
  stamp_reported clock i outages m !! k = m !! k.
Proof.
  revert i m. induction outages as [|o outages IH]; intros i m; simpl; [done|].
  intros [Hne Hnotin]%not_elem_of_cons.
  rewrite IH by done. by rewrite lookup_insert_ne.
Qed.

Lemma stamp_reported_lookup clock i outages (m : gmap string Z) j o :
  NoDup (outage_service <$> outages) →
  outages !! j = Some o →
  stamp_reported clock i outages m !! outage_service o = Some (clock (i + j)%nat).
Proof.
  revert i m j. induction outages as [|o' outages IH]; intros i m j; simpl.
  - by rewrite lookup_nil.
  - intros [Hnotin Hnd]%NoDup_cons. destruct j as [|j]; simpl.
    + intros [= ->]. rewrite stamp_reported_lookup_other by done.
      rewrite lookup_insert_eq. do 2 f_equal. lia.
    + intros Hj. rewrite (IH (S i) _ j) by done. do 2 f_equal. lia.
Qed.

Section DeliveredRun.
Variable toLocaleString : Z → string.

Lemma delivered_run w statusChecks url status :
  status_file w = Some statusChecks →
  SLACK_WEBHOOK_URL w = Some url → url ≠ "" →
  delivery w = Responded status → 200 ≤ status < 300 →
  let currentOutages := findCurrentOutages (now w) statusChecks in
  let cleaned := remove_resolved currentOutages (loadReportedOutages w) in
  let toAlert := toAlert_of (now w) statusChecks (loadReportedOutages w) in
  toAlert ≠ [] →
  sendSlackNotification toLocaleString w
    = ([Post url (message_blocks toLocaleString toAlert);
        WriteReportedOutages
          (stamp_reported (Date_now w) 0 toAlert cleaned)], Returned).
Proof.
  intros Hfile Hurl Hne Hd Hstatus currentOutages cleaned toAlert Hsome.
  assert (longOutages currentOutages ≠ []) as Hlong.
  { intros Hnil. apply Hsome. unfold toAlert, toAlert_of.
    fold currentOutages. by rewrite Hnil. }
  unfold sendSlackNotification. rewrite Hfile, Hurl, Hd.
  fold currentOutages. fold cleaned.
  change (newOutages cleaned (longOutages currentOutages)) with toAlert.
  rewrite !bool_decide_eq_false_2 by done.
  rewrite decide_False by done.
  destruct (Z.leb_spec 200 status), (Z.ltb_spec status 300); simpl;
    try done; lia.
Qed.

Lemma stamped_ledger_lookup (w : World) statusChecks j o :
  let cleaned :=
    remove_resolved (findCurrentOutages (now w) statusChecks)
      (loadReportedOutages w) in
  let toAlert := toAlert_of (now w) statusChecks (loadReportedOutages w) in
  toAlert !! j = Some o →
  stamp_reported (Date_now w) 0 toAlert cleaned !! outage_service o
  = Some (Date_now w j).
Proof.
  intros cleaned toAlert Hj.
  rewrite (stamp_reported_lookup _ 0 _ _ j o); [done| |done].
  apply toAlert_of_services_NoDup.
Qed.

(** X11. When some outage is selected and the post resolves with a 2xx
    status, the run posts once, then writes the cleaned ledger in which
    the j-th selected service is stamped with the j-th reading of the
    clock and no other entry is changed, and returns normally. *)
Theorem sendSlackNotification_delivered w statusChecks url status :
  status_file w = Some statusChecks →
  SLACK_WEBHOOK_URL w = Some url → url ≠ "" →
  delivery w = Responded status → 200 ≤ status < 300 →
  let currentOutages := findCurrentOutages (now w) statusChecks in
  let cleaned := remove_resolved currentOutages (loadReportedOutages w) in
  let toAlert := toAlert_of (now w) statusChecks (loadReportedOutages w) in
  toAlert ≠ [] →
  ∃ written,
    sendSlackNotification toLocaleString w
      = ([Post url (message_blocks toLocaleString toAlert);
          WriteReportedOutages written], Returned) ∧
    (∀ j o, toAlert !! j = Some o →
            written !! outage_service o = Some (Date_now w j)) ∧
    (∀ k, k ∉ outage_service <$> toAlert → written !! k = cleaned !! k).
Proof.
  intros Hfile Hurl Hne Hd Hstatus currentOutages cleaned toAlert Hsome.
  exists (stamp_reported (Date_now w) 0 toAlert cleaned). split; [|split].
  - by apply (delivered_run w statusChecks url status).
  - intros j o Hj. by apply stamped_ledger_lookup.
  - intros k Hk. by apply stamp_reported_lookup_other.
Qed.

(** X12. No duplicate alert: after a run whose post succeeded and whose
    clock readings were not 0, a run that reads the ledger written by
    the first one selects none of the services the first one alerted,
    whatever observations and instant it works on. *)
Theorem no_duplicate_alert w1 checks1 url status written w2 checks2 o1 o2 :
  status_file w1 = Some checks1 →
  SLACK_WEBHOOK_URL w1 = Some url → url ≠ "" →
  delivery w1 = Responded status → 200 ≤ status < 300 →
  (∀ j, Date_now w1 j ≠ 0) →
  written_ledger (sendSlackNotification toLocaleString w1).1 = Some written →
  reported_file w2 = Some written →
  o1 ∈ toAlert_of (now w1) checks1 (loadReportedOutages w1) →
  o2 ∈ toAlert_of (now w2) checks2 (loadReportedOutages w2) →
  outage_service o2 ≠ outage_service o1.
Proof.
  intros Hfile Hurl Hne Hd Hstatus Hclock Hwritten Hfile2 Ho1 Ho2 Hsame.
  assert (toAlert_of (now w1) checks1 (loadReportedOutages w1) ≠ []) as Hsome.
  { intros Hnil. rewrite Hnil in Ho1. by apply elem_of_nil in Ho1. }
  rewrite (delivered_run w1 checks1 url status Hfile Hurl Hne Hd Hstatus Hsome)
    in Hwritten.
  simpl in Hwritten. injection Hwritten as <-.
  apply list_elem_of_lookup in Ho1 as [j Hj].
  pose proof (stamped_ledger_lookup w1 checks1 j o1 Hj) as Hstamp.
  simpl in Hstamp.
  unfold toAlert_of, newOutages, longOutages in Ho2.
  apply list_elem_of_filter in Ho2 as [Hfalsy [_ Hin]%list_elem_of_filter].
  apply findCurrentOutages_has_service in Hin.
  apply truthy_property_false in Hfalsy.
  rewrite remove_resolved_lookup, Hin in Hfalsy.
  unfold loadReportedOutages in Hfalsy. rewrite Hfile2, Hsame, Hstamp in Hfalsy.
  destruct Hfalsy as [[? _]|[= Hzero]]; [done|]. by apply (Hclock j).
Qed.
End DeliveredRun.

Lemma sendSlackNotification_delivered_witness :
  let toAlert :=
    toAlert_of (now delivered_world) two_failing
      (loadReportedOutages delivered_world) in
  let cleaned :=
    remove_resolved (findCurrentOutages (now delivered_world) two_failing)
      (loadReportedOutages delivered_world) in
  ∃ written,
    sendSlackNotification Number_toString delivered_world
      = ([Post "https://hooks.example/T000"
            (message_blocks Number_toString toAlert);
          WriteReportedOutages written], Returned) ∧
    (∀ j o, toAlert !! j = Some o →
            written !! outage_service o = Some (Date_now delivered_world j)) ∧
    (∀ k, k ∉ outage_service <$> toAlert → written !! k = cleaned !! k).
Proof.
  apply (sendSlackNotification_delivered Number_toString delivered_world
           two_failing "https://hooks.example/T000" 200).
  - reflexivity.
  - reflexivity.
  - discriminate.
  - reflexivity.
  - lia.
  - vm_compute. discriminate.
Defined.

Lemma no_duplicate_alert_witness : "svcC" ≠ "svcB".
Proof.
  apply (no_duplicate_alert Number_toString delivered_world two_failing
           "https://hooks.example/T000" 200
           {[ "svcB" := 1700000000000; "svcA" := 1700000000001 ]}
           following_world three_failing
           {| outage_service := "svcB"; startTime := 0;
              duration := minutes 30; outage_error := "timeout";
              isOngoing := true |}
           {| outage_service := "svcC"; startTime := minutes 10;
              duration := minutes 25; outage_error := "refused";
              isOngoing := true |}).
  - reflexivity.
  - reflexivity.
  - discriminate.
  - reflexivity.
  - lia.
  - intros j. simpl. lia.
  - vm_compute. reflexivity.
  - reflexivity.
  - vm_compute. left.
  - vm_compute. left.
Defined.

Section ScriptOutcomes.
Variable toLocaleString : Z → string.

(** X13. Every run ends in one of four ways. If it returns normally it
    has written the ledger exactly once, after its only post if it
    posted. If it exits, the status is 1 and it has written no ledger;
    it has posted at most once. *)
Theorem script_outcomes w :
  let run := script toLocaleString w in
  match run.2 with
  | Returned =>
      ∃ l, run.1 = [WriteReportedOutages l] ∨
           ∃ url blocks, run.1 = [Post url blocks; WriteReportedOutages l]
  | ProcessExit code =>
      code = 1 ∧ (run.1 = [] ∨ ∃ url blocks, run.1 = [Post url blocks])
  end.
Proof.
  unfold script, sendSlackNotification.
  destruct (SLACK_WEBHOOK_URL w) as [url|]; [|by split; [|left]].
  destruct (decide (url = "")); [by split; [|left]|].
  destruct (status_file w) as [statusChecks|]; [|by split; [|left]].
  case_bool_decide; [by eexists; left|].
  case_bool_decide; [by eexists; left|].
  destruct (delivery w) as [status|].
  - destruct ((200 <=? status) && (status <? 300));
      eexists; right; by do 2 eexists.
  - split; [done|]. right. by do 2 eexists.
Qed.

(** X14. The run exits with a failure status exactly when the webhook
    URL is unset or empty, or the status file cannot be read and decoded,
    or some outage is selected for an alert and the post is rejected. A
    post that resolves, whatever its status, never makes the run fail. *)
Theorem script_fatal_iff w :
  (script toLocaleString w).2 ≠ Returned ↔
  SLACK_WEBHOOK_URL w = None ∨ SLACK_WEBHOOK_URL w = Some "" ∨
  status_file w = None ∨
  (∃ statusChecks,
     status_file w = Some statusChecks ∧
     toAlert_of (now w) statusChecks (loadReportedOutages w) ≠ [] ∧
     delivery w = Rejected).
Proof.
  unfold script, sendSlackNotification, toAlert_of.
  destruct (SLACK_WEBHOOK_URL w) as [url|]; [|split; [by left|done]].
  destruct (decide (url = "")) as [->|Hurl];
    [split; [by right; left|done]|].
  destruct (status_file w) as [statusChecks|];
    [|split; [by right; right; left|done]].
  case_bool_decide as Hlong.
  { simpl. split; [done|].
    intros [?|[[= ?]|[?|(sc & [= <-] & Hsome & _)]]]; try done.
    exfalso. apply Hsome. by rewrite Hlong. }
  case_bool_decide as Hnew.
  { simpl. split; [done|].
    intros [?|[[= ?]|[?|(sc & [= <-] & Hsome & _)]]]; done. }
  destruct (delivery w) as [status|].
  - destruct ((200 <=? status) && (status <? 300)); simpl;
      (split; [done|]);
      intros [?|[[= ?]|[?|(sc & _ & _ & ?)]]]; done.
  - simpl. split; [|done]. intros _. right; right; right.
    by exists statusChecks.
Qed.
End ScriptOutcomes.

(* ===================================================================== *)
(* Further properties of the formatting and of the reading               *)
(* ===================================================================== *)

(** X15. formatDuration switches to the hours format at 59.5 minutes:
    below 3570000 ms, negative amounts included, the result is the
    numeral of the nearest minute, which is below 60, followed by min;
    from 3570000 ms on it names at least one hour and a number of
    minutes below 60 on two digits. *)
Theorem formatDuration_hours_from milliseconds :
  (milliseconds < 3570000 →
     ∃ m, nearest_minute milliseconds m ∧ m < 60 ∧
          formatDuration milliseconds = Number_toString m +:+ "min") ∧
  (3570000 ≤ milliseconds →
     ∃ h mm, nearest_minute milliseconds (60 * h + mm) ∧
             1 ≤ h ∧ 0 ≤ mm < 60 ∧
             formatDuration milliseconds =
             Number_toString h +:+ "hr " +:+ two_digits mm +:+ "min").
Proof.
  pose proof (Math_round_minutes_nearest milliseconds) as Hnear.
  unfold formatDuration.
  destruct (Z.leb_spec 60 (Math_round_minutes milliseconds)) as [Hge|Hlt].
  - split; [unfold nearest_minute in Hnear; lia|]. intros _.
    set (m := Math_round_minutes milliseconds) in *.
    pose proof (Z.div_mod m 60) as Hdiv.
    pose proof (Z.mod_pos_bound m 60) as Hmod.
    exists (m / 60), (m mod 60).
    replace (60 * (m / 60) + m mod 60) with m by lia.
    split; [done|]. split; [lia|]. split; [lia|].
    rewrite Z.rem_mod_nonneg by lia.
    by rewrite padStart_two_digits by lia.
  - split; [|unfold nearest_minute in Hnear; lia]. intros _.
    by exists (Math_round_minutes milliseconds).
Qed.

Lemma formatDuration_hours_from_witness :
  ∃ m, nearest_minute (-300000) m ∧ m < 60 ∧
       formatDuration (-300000) = Number_toString m +:+ "min".
Proof.
  apply (proj1 (formatDuration_hours_from (-300000))). lia.
Defined.

Lemma trimStart_white_space_app ws s :
  Forall (λ c, is_white_space c) ws → trimStart (ws ++ s) = trimStart s.
Proof.
  induction 1 as [|c ws Hc _ IH]; simpl; [done|].
  by destruct (is_white_space c).
Qed.

Lemma trimStart_blank s :
  Forall (λ c, is_white_space c) s → trimStart s = [].
Proof.
  intros Hs. rewrite <- (app_nil_r s). by rewrite trimStart_white_space_app.
Qed.

Lemma trimStart_nil_blank s :
  trimStart s = [] → Forall (λ c, is_white_space c) s.
Proof.
  induction s as [|c s IH]; simpl; [constructor|].
  destruct (is_white_space c) eqn:Hc; [|done].
  intros Hs. constructor; [by rewrite Hc|by apply IH].
Qed.

Lemma trimStart_app_nonblank s t :
  trimStart s ≠ [] → trimStart (s ++ t) = trimStart s ++ t.
Proof.
  induction s as [|c s IH]; simpl; [done|].
  destruct (is_white_space c); [exact IH|done].
Qed.

Lemma trimEnd_app_white_space s ws :
  Forall (λ c, is_white_space c) ws → trimEnd (s ++ ws) = trimEnd s.
Proof.
  intros Hws. unfold trimEnd.
  rewrite reverse_app, trimStart_white_space_app; [done|].
  by apply Forall_reverse.
Qed.

Lemma String_trim_surrounded ws1 s ws2 :
  Forall (λ c, is_white_space c) ws1 →
  Forall (λ c, is_white_space c) ws2 →
  String_trim (ws1 ++ s ++ ws2) = String_trim s.
Proof.
  intros Hws1 Hws2. unfold String_trim.
  rewrite trimStart_white_space_app by done.
  destruct (trimStart s) as [|c s'] eqn:Hs.
  - rewrite trimStart_blank; [done|].
    apply Forall_app. split; [by apply trimStart_nil_blank|done].
  - rewrite trimStart_app_nonblank by (by rewrite Hs).
    rewrite Hs. by apply trimEnd_app_white_space.
Qed.

Lemma String_trim_blank s :
  Forall (λ c, is_white_space c) s → String_trim s = [].
Proof. intros Hs. unfold String_trim. by rewrite trimStart_blank. Qed.

Lemma split_lines_cons s : ∃ line rest, split_lines s = line :: rest.
Proof.
  induction s as [|c s (line & rest & IH)]; simpl; [by eexists _, _|].
  destruct (c =? 10)%N; [by eexists _, _|].
  rewrite IH. by eexists _, _.
Qed.

(* The pieces of two strings joined by a line feed are the pieces of the
   first followed by the pieces of the second. *)
Lemma split_lines_line_feed a b :
  split_lines (a ++ 10%N :: b) = split_lines a ++ split_lines b.
Proof.
  induction a as [|c a IH]; simpl; [done|].
  destruct (c =? 10)%N; [by rewrite IH|].
  rewrite IH. by destruct (split_lines_cons a) as (line & rest & ->).
Qed.

Section ReadStatusChecksFacts.
Variable JSON_parse : JsString → option StatusCheck.

(** X16. An empty line is fatal: when JSON.parse rejects the empty string
    and the status file is empty or blank, or holds two consecutive line
    feeds between its records, readStatusChecks fails as a whole, and
    the run exits with status 1 before it posts or writes anything. *)
Theorem readStatusChecks_empty_line content :
  JSON_parse [] = None →
  (Forall (λ c, is_white_space c) content ∨
   ∃ a b, String_trim content = a ++ 10%N :: 10%N :: b) →
  readStatusChecks JSON_parse (Some content) = None ∧
  ∀ toLocaleString w,
    status_file w = readStatusChecks JSON_parse (Some content) →
    sendSlackNotification toLocaleString w = ([], ProcessExit 1).
Proof.
  intros Hempty Hcontent.
  assert (readStatusChecks JSON_parse (Some content) = None) as Hread.
  { unfold readStatusChecks. apply mapM_None. apply Exists_exists.
    exists []. split; [|done].
    destruct Hcontent as [Hblank|(a & b & ->)].
    - rewrite String_trim_blank by done. by left.
    - rewrite split_lines_line_feed. apply elem_of_app. right.
      simpl. by left. }
  split; [done|].
  intros toLocaleString w Hfile. unfold sendSlackNotification.
  by rewrite Hfile, Hread.
Qed.

(** X17. White space around the text of the status file is ignored: a
    final line feed, leading blank lines or a byte order mark do not
    change what readStatusChecks returns. *)
Theorem readStatusChecks_surrounding_white_space ws1 content ws2 :
  Forall (λ c, is_white_space c) ws1 →
  Forall (λ c, is_white_space c) ws2 →
  readStatusChecks JSON_parse (Some (ws1 ++ content ++ ws2))
  = readStatusChecks JSON_parse (Some content).
Proof.
  intros Hws1 Hws2. unfold readStatusChecks.
  by rewrite String_trim_surrounded.
Qed.
End ReadStatusChecksFacts.

Lemma readStatusChecks_empty_line_witness :
  readStatusChecks toy_parse (Some [53; 10; 10; 55]%N) = None ∧
  ∀ toLocaleString w,
    status_file w = readStatusChecks toy_parse (Some [53; 10; 10; 55]%N) →
    sendSlackNotification toLocaleString w = ([], ProcessExit 1).
Proof.
  apply readStatusChecks_empty_line.
  - reflexivity.
  - right. exists [53%N], [55%N]. reflexivity.
Defined.

Lemma readStatusChecks_surrounding_white_space_witness :
  readStatusChecks toy_parse (Some ([65279; 32] ++ [53; 10; 55] ++ [13; 10])%N)
  = readStatusChecks toy_parse (Some [53; 10; 55]%N).
Proof.
  apply readStatusChecks_surrounding_white_space.
  - repeat constructor.
  - repeat constructor.
Defined.

(* ===================================================================== *)
(* Further properties of the message and of its posting                  *)
(* ===================================================================== *)

Section MessageFacts.
Variable toLocaleString : Z → string.

Lemma outage_blocks_bind_drop (outages : list Outage) j o :
  outages !! j = Some o →
  take 2 (drop (2 * j) (outages ≫= outage_blocks toLocaleString))
  = outage_blocks toLocaleString o.
Proof.
  revert j. induction outages as [|o' outages IH]; intros j.
  - by rewrite lookup_nil.
  - rewrite bind_cons. destruct j as [|j]; simpl.
    + by intros [= ->].
    + intros Hj. replace (j + S (j + 0))%nat with (S (2 * j)) by lia.
      simpl. by apply IH.
Qed.

(** X18. The message carries one header followed, for each selected
    outage in order, by its section and a divider: 1 + 2n blocks for n
    outages, the blocks of the j-th outage at positions 1 + 2j and
    2 + 2j. *)
Theorem message_blocks_layout (outages : list Outage) :
  length (message_blocks toLocaleString outages)
    = (1 + 2 * length outages)%nat ∧
  head (message_blocks toLocaleString outages)
    = Some (header "🚨 Service Outage Notification") ∧
  ∀ j o, outages !! j = Some o →
         take 2 (drop (1 + 2 * j) (message_blocks toLocaleString outages))
         = outage_blocks toLocaleString o.
Proof.
  unfold message_blocks. split; [|split; [done|]].
  - simpl. f_equal. induction outages as [|o outages IH]; [done|].
    rewrite bind_cons. simpl. rewrite IH. lia.
  - intros j o Hj. change (1 + 2 * j)%nat with (S (2 * j)).
    rewrite skipn_cons. by apply outage_blocks_bind_drop.
Qed.

(** X19. The run posts exactly when the webhook URL is set, the status
    file is read and some outage is selected; the post then goes to the
    configured URL and carries the message built from the selected
    outages. It never posts to another address, and never posts when
    nothing is selected. *)
Theorem script_posts_iff w url blocks :
  Post url blocks ∈ (script toLocaleString w).1 ↔
  SLACK_WEBHOOK_URL w = Some url ∧ url ≠ "" ∧
  ∃ statusChecks,
    status_file w = Some statusChecks ∧
    toAlert_of (now w) statusChecks (loadReportedOutages w) ≠ [] ∧
    blocks = message_blocks toLocaleString
               (toAlert_of (now w) statusChecks (loadReportedOutages w)).
Proof.
  unfold script, sendSlackNotification, toAlert_of.
  destruct (SLACK_WEBHOOK_URL w) as [url'|];
    [|split; [by intros ?%elem_of_nil|by intros [? _]]].
  destruct (decide (url' = "")) as [->|Hurl].
  { split; [by intros ?%elem_of_nil|]. by intros [[= <-] [? _]]. }
  destruct (status_file w) as [statusChecks|].
  2:{ split; [by intros ?%elem_of_nil|]. by intros (_ & _ & ? & ? & _). }
  case_bool_decide as Hlong.
  { split.
    - by intros [=]%list_elem_of_singleton.
    - intros (_ & _ & sc & [= <-] & Hsome & _). exfalso. apply Hsome.
      by rewrite Hlong. }
  case_bool_decide as Hnew.
  { split.
    - by intros [=]%list_elem_of_singleton.
    - by intros (_ & _ & sc & [= <-] & Hsome & _). }
  set (toAlert :=
         newOutages
           (remove_resolved (findCurrentOutages (now w) statusChecks)
              (loadReportedOutages w))
           (longOutages (findCurrentOutages (now w) statusChecks))) in *.
  assert (∀ rest,
            (∀ u b, Post u b ∉ rest) →
            Post url blocks ∈
              Post url' (message_blocks toLocaleString toAlert) :: rest ↔
            url' = url ∧ blocks = message_blocks toLocaleString toAlert)
    as Hpost.
  { intros rest Hrest. split.
    - intros [[= -> ->]|Hin]%elem_of_cons; [done|by apply Hrest in Hin].
    - intros [-> ->]. by left. }
  assert (url' = url ∧ blocks = message_blocks toLocaleString toAlert ↔
          Some url' = Some url ∧ url ≠ "" ∧
          ∃ sc, Some statusChecks = Some sc ∧
                newOutages
                  (remove_resolved (findCurrentOutages (now w) sc)
                     (loadReportedOutages w))
                  (longOutages (findCurrentOutages (now w) sc)) ≠ [] ∧
                blocks =
                message_blocks toLocaleString
                  (newOutages
                     (remove_resolved (findCurrentOutages (now w) sc)
                        (loadReportedOutages w))
                     (longOutages (findCurrentOutages (now w) sc))))
    as <-.
  { split.
    - intros [-> ->]. split; [done|]. split; [done|]. by exists statusChecks.
    - by intros ([= ->] & _ & sc & [= <-] & _ & ->). }
  destruct (delivery w) as [status|].
  - destruct ((200 <=? status) && (status <? 300)); simpl; apply Hpost;
      by intros u b [=]%list_elem_of_singleton.
  - simpl. apply Hpost. by intros u b ?%elem_of_nil.
Qed.
End MessageFacts.

Lemma message_blocks_layout_witness :
  let outages := JsMap.values (findCurrentOutages (minutes 30) two_failing) in
  let o := {| outage_service := "svcA"; startTime := 0;
              duration := minutes 30; outage_error := "timeout";
              isOngoing := true |} in
  take 2 (drop 3 (message_blocks Number_toString outages))
  = outage_blocks Number_toString o.
Proof.
  intros outages o.
  apply (proj2 (proj2 (message_blocks_layout Number_toString outages)) 1%nat o).
  reflexivity.
Defined.

Lemma script_fatal_iff_witness :
  (script Number_toString (failing_world Rejected)).2 ≠ Returned.
Proof.
  apply (proj2 (script_fatal_iff Number_toString (failing_world Rejected))).
  right; right; right. exists two_failing.
  split; [reflexivity|]. split; [vm_compute; discriminate|reflexivity].
Defined.

Lemma script_posts_iff_witness :
  Post "https://hooks.example/T000"
    (message_blocks Number_toString
       (toAlert_of (minutes 30) two_failing
          (loadReportedOutages delivered_world)))
  ∈ (script Number_toString delivered_world).1.
Proof.
  apply (proj2 (script_posts_iff Number_toString delivered_world _ _)).
  split; [reflexivity|]. split; [discriminate|].
  exists two_failing. split; [reflexivity|].
  split; [vm_compute; discriminate|reflexivity].
Defined.
